(** * Logotopia relay server (server.js): a shallow embedding

    The relay keeps a process-wide [Map] of connected players, fans
    messages out over their WebSocket channels, evicts stale players on a
    timer, and forwards two kinds of requests to a generative backend.
    Every callback runs to completion on the single Node event loop, so a
    callback is a function from the world before it to the world after it.
    Calls into the outside (socket sends, closes, backend requests) are
    appended to a chronological list of effects. *)

From Stdlib Require Import List String Ascii ZArith Bool Arith Lia.
Import ListNotations.
Local Open Scope string_scope.
Local Open Scope list_scope.
Local Open Scope Z_scope.
Set Warnings "-register-all".

(** ** JavaScript values

    What [JSON.parse] can return, plus [undefined], which property reads
    produce.  Numbers are restricted to integers: the server only ever
    tests them for truthiness or copies them. *)

Inductive jsval : Type :=
| JUndefined
| JNull
| JBool (b : bool)
| JNum (n : Z)
| JStr (s : string)
| JArr (items : list jsval)
| JObj (fields : list (string * jsval)).

(** Exceptions carry the [message] that the error replies echo. *)
Inductive Exn : Type :=
| SyntaxError (message : string)
| TypeError (message : string)
| Error (message : string).

Definition message (e : Exn) : string :=
  match e with
  | SyntaxError m | TypeError m | Error m => m
  end.

Inductive Res (A : Type) : Type :=
| Ok (a : A)
| Throw (e : Exn).
Arguments Ok {A} a.
Arguments Throw {A} e.

Definition bind {A B : Type} (r : Res A) (k : A -> Res B) : Res B :=
  match r with
  | Ok a => k a
  | Throw e => Throw e
  end.

Notation "x <- r ;; k" := (bind r (fun x => k))
  (at level 61, r at next level, right associativity).

(** JavaScript truthiness, as tested by [if (v)], [a && b] and [a || b]. *)
Definition truthy (v : jsval) : bool :=
  match v with
  | JUndefined | JNull => false
  | JBool b => b
  | JNum n => negb (n =? 0)
  | JStr s => negb (s =? "")%string
  | JArr _ | JObj _ => true
  end.

(** [a || b] *)
Definition js_or (a b : jsval) : jsval := if truthy a then a else b.

(** [v === 'lit'] for a string literal. *)
Definition is_str (v : jsval) (lit : string) : bool :=
  match v with
  | JStr s => (s =? lit)%string
  | _ => false
  end.

Fixpoint assoc (k : string) (fields : list (string * jsval)) : jsval :=
  match fields with
  | [] => JUndefined
  | (k', v) :: rest => if (k =? k')%string then v else assoc k rest
  end.

(** [v.k] for the property names the server reads ([type], [data],
    [prompt], [apiKey], [name], ...): none of them is defined on the
    prototypes of strings, numbers, booleans or arrays, so on those the read
    gives [undefined]; on [null] and [undefined] it throws. *)
Definition get (v : jsval) (k : string) : Res jsval :=
  match v with
  | JUndefined | JNull => Throw (TypeError "Cannot read properties of null or undefined")
  | JObj fields => Ok (assoc k fields)
  | _ => Ok JUndefined
  end.

(** The same read where the receiver is already known not to throw. *)
Definition prop (v : jsval) (k : string) : jsval :=
  match v with
  | JObj fields => assoc k fields
  | _ => JUndefined
  end.

(** [v[0]] *)
Definition get0 (v : jsval) : Res jsval :=
  match v with
  | JUndefined | JNull => Throw (TypeError "Cannot read properties of null or undefined")
  | JArr items => Ok (nth 0 items JUndefined)
  | JStr s => Ok (match s with
                  | EmptyString => JUndefined
                  | String c _ => JStr (String c EmptyString)
                  end)
  | JObj fields => Ok (assoc "0" fields)
  | _ => Ok JUndefined
  end.

(** [v.slice(0, n)]: defined on strings (code units) and arrays; on any
    other value [slice] is not a function and the call throws. *)
Definition js_slice0 (v : jsval) (n : nat) : Res jsval :=
  match v with
  | JStr s => Ok (JStr (substring 0 n s))
  | JArr items => Ok (JArr (firstn n items))
  | _ => Throw (TypeError "slice is not a function")
  end.

(** ** String helpers used on the backend's reply

    A character of a [string] stands for one UTF-16 code unit. *)

Definition is_space (c : ascii) : bool :=
  let n := nat_of_ascii c in
  ((9 <=? n)%nat && (n <=? 13)%nat) || (n =? 32)%nat || (n =? 160)%nat.

Fixpoint drop_spaces (l : list ascii) : list ascii :=
  match l with
  | [] => []
  | c :: rest => if is_space c then drop_spaces rest else l
  end.

(** [s.trim()] *)
Definition trim (s : string) : string :=
  string_of_list_ascii
    (rev (drop_spaces (rev (drop_spaces (list_ascii_of_string s))))).

(** [s.startsWith(p)] *)
Definition startsWith (p s : string) : bool := String.prefix p s.

Definition drop_prefix (p s : string) : string :=
  if String.prefix p s
  then substring (String.length p) (String.length s - String.length p) s
  else s.

Definition endsWith (p s : string) : bool :=
  let lp := String.length p in
  let ls := String.length s in
  (lp <=? ls)%nat && (substring (ls - lp) lp s =? p)%string.

Definition drop_suffix (p s : string) : string :=
  if endsWith p s then substring 0 (String.length s - String.length p) s else s.

Definition nl : string := String "010"%char EmptyString.
Definition fence : string := "```".

(** [s.replace(/^```(?:javascript|js)?\n?/, '')] on an [s] that starts
    with the fence; [lang] lists the alternatives in the order the regular
    expression tries them. *)
Definition strip_open_fence (lang : list string) (s : string) : string :=
  let after_fence := drop_prefix fence s in
  let after_lang :=
    match find (fun l => String.prefix l after_fence) lang with
    | Some l => drop_prefix l after_fence
    | None => after_fence
    end in
  drop_prefix nl after_lang.

(** [s.replace(/\n?```$/, '')] *)
Definition strip_close_fence (s : string) : string :=
  if endsWith (nl ++ fence)%string s then drop_suffix (nl ++ fence)%string s
  else drop_suffix fence s.

Definition strip_fences (lang : list string) (s : string) : string :=
  if startsWith fence s
  then strip_close_fence (strip_open_fence lang s)
  else s.

(** ** Sockets, players and the registry *)

(** A [ws] object handed to the ['connection'] callback has completed its
    handshake: the library never shows server code a socket that is still
    connecting, so the states are the remaining three, with the numeric
    codes the code compares against. *)
Inductive ReadyState : Type := OPEN | CLOSING | CLOSED.

Definition readyState_code (r : ReadyState) : Z :=
  match r with
  | OPEN => 1
  | CLOSING => 2
  | CLOSED => 3
  end.

Definition Ws := nat.
Bind Scope nat_scope with Ws.
Definition Id := string.

(** [{ ws, lastSeen, state }] *)
Record Player : Type := mkPlayer {
  ws : Ws;
  lastSeen : Z;
  state : jsval
}.

(** A JavaScript [Map] keyed by strings: entries in insertion order, keys
    unique.  [set] on a present key replaces the value in place, on an absent
    key appends; [delete] removes the entry. *)
Section JsMap.
Context {V : Type}.

Fixpoint map_get (k : Id) (m : list (Id * V)) : option V :=
  match m with
  | [] => None
  | (k', v) :: rest => if (k =? k')%string then Some v else map_get k rest
  end.

Fixpoint map_set (k : Id) (v : V) (m : list (Id * V)) : list (Id * V) :=
  match m with
  | [] => [(k, v)]
  | (k', v') :: rest =>
      if (k =? k')%string then (k', v) :: rest
      else (k', v') :: map_set k v rest
  end.

Fixpoint map_delete (k : Id) (m : list (Id * V)) : list (Id * V) :=
  match m with
  | [] => []
  | (k', v') :: rest =>
      if (k =? k')%string then map_delete k rest
      else (k', v') :: map_delete k rest
  end.

Definition map_size (m : list (Id * V)) : Z := Z.of_nat (List.length m).

Definition keys (m : list (Id * V)) : list Id := List.map fst m.
End JsMap.

Inductive SystemPrompt : Type := AI_SYSTEM_PROMPT | NARRATIVE_SYSTEM_PROMPT.

(** Calls that leave the process. *)
Inductive Effect : Type :=
| WsSend (s : Ws) (raw : string)
| WsClose (s : Ws)
| WsTerminate (s : Ws)
| MessagesCreate (apiKey : jsval) (model : string) (max_tokens : Z)
                 (system : SystemPrompt) (content : jsval).

Inductive LogEntry : Type :=
| LogAIRequest (id : Id) (prompt : jsval)
| LogNarrativeRequest (id : Id) (name : jsval)
| LogNarrativeResult (name summary : jsval)
| LogWSMessageError
| LogAIError (msg : string)
| LogNarrativeError (name : jsval) (msg : string).

(** What a suspended [async] call keeps in its closure across [await]. *)
Inductive Closure : Type :=
| AIFrame (authorId : Id) (prompt : jsval)
| NarrativeFrame (authorId : Id) (msg : jsval).

(** What the awaited backend call settles with. *)
Inductive Outcome : Type :=
| Resolved (response : jsval)
| Rejected (e : Exn).

Record World : Type := mkWorld {
  players : list (Id * Player);
  sockets : Ws -> ReadyState;
  uuid_calls : nat;
  listeners : list (Ws * Id);
  pending : list Closure;
  effects : list Effect;
  console : list LogEntry
}.

Definition set_players (f : list (Id * Player) -> list (Id * Player)) (w : World) : World :=
  mkWorld (f (players w)) (sockets w) (uuid_calls w) (listeners w)
          (pending w) (effects w) (console w).

Definition set_socket (s : Ws) (f : ReadyState -> ReadyState) (w : World) : World :=
  mkWorld (players w)
          (fun s' => if (s' =? s)%nat then f (sockets w s') else sockets w s')
          (uuid_calls w) (listeners w) (pending w) (effects w) (console w).

Definition tick_uuid (w : World) : World :=
  mkWorld (players w) (sockets w) (S (uuid_calls w)) (listeners w)
          (pending w) (effects w) (console w).

Definition add_listener (s : Ws) (id : Id) (w : World) : World :=
  mkWorld (players w) (sockets w) (uuid_calls w) (listeners w ++ [(s, id)])
          (pending w) (effects w) (console w).

Definition set_pending (f : list Closure -> list Closure) (w : World) : World :=
  mkWorld (players w) (sockets w) (uuid_calls w) (listeners w)
          (f (pending w)) (effects w) (console w).

Definition emit (e : Effect) (w : World) : World :=
  mkWorld (players w) (sockets w) (uuid_calls w) (listeners w)
          (pending w) (effects w ++ [e]) (console w).

Definition log (l : LogEntry) (w : World) : World :=
  mkWorld (players w) (sockets w) (uuid_calls w) (listeners w)
          (pending w) (effects w) (console w ++ [l]).

(** The three socket methods the server calls.  [send] without a callback
    on a socket that is no longer open does not throw; [close] and
    [terminate] leave a closed socket closed and move any other to
    [CLOSING]. *)
Definition ws_send (s : Ws) (raw : string) (w : World) : World :=
  emit (WsSend s raw) w.

Definition shut (r : ReadyState) : ReadyState :=
  match r with
  | CLOSED => CLOSED
  | _ => CLOSING
  end.

Definition ws_close (s : Ws) (w : World) : World :=
  set_socket s shut (emit (WsClose s) w).

Definition ws_terminate (s : Ws) (w : World) : World :=
  set_socket s shut (emit (WsTerminate s) w).

(** ** The runtime the server stands on

    Built-ins and libraries whose results the server only passes along:
    the JSON codec ([None] is a thrown [SyntaxError]), the printing of a
    number, and the identifier generator, read as the sequence of values
    its successive calls return. *)
Class Runtime : Type := {
  JSON_parse : string -> option jsval;
  JSON_stringify : jsval -> string;
  Number_toString : Z -> string;
  uuidv4 : nat -> Id
}.

Definition MAX_PLAYERS : Z := 8.
Definition STALE_TIMEOUT : Z := 15000.
Definition MODEL : string := "claude-sonnet-4-5-20250929".
Definition MAX_TOKENS : Z := 1024.
Definition PROMPT_LIMIT : nat := 500.

Section Server.
Context {rt : Runtime}.

(** *** getPlayerStates *)
Definition roster_entry (e : Id * Player) : jsval :=
  JObj [("id", JStr (fst e)); ("data", state (snd e))].

Definition getPlayerStates (w : World) : list jsval :=
  List.map roster_entry (filter (fun e => truthy (state (snd e))) (players w)).

(** *** broadcast and broadcastAll *)

(** [id !== excludeId], where a call without the second argument leaves
    [excludeId] undefined. *)
Definition differs (id : Id) (excludeId : option Id) : bool :=
  match excludeId with
  | Some x => negb (id =? x)%string
  | None => true
  end.

Definition is_open (w : World) (p : Player) : bool :=
  readyState_code (sockets w (ws p)) =? 1.

Definition broadcast (msg : jsval) (excludeId : option Id) (w : World) : World :=
  let raw := JSON_stringify msg in
  fold_left
    (fun w' e => if differs (fst e) excludeId && is_open w' (snd e)
                 then ws_send (ws (snd e)) raw w'
                 else w')
    (players w) w.

Definition broadcastAll (msg : jsval) (w : World) : World :=
  let raw := JSON_stringify msg in
  fold_left
    (fun w' e => if is_open w' (snd e) then ws_send (ws (snd e)) raw w' else w')
    (players w) w.

(** *** Outbound messages *)
Definition msg_full : jsval := JObj [("type", JStr "full")].
Definition msg_welcome (id : Id) (roster : list jsval) : jsval :=
  JObj [("type", JStr "welcome"); ("id", JStr id); ("players", JArr roster)].
Definition msg_join (id : Id) : jsval := JObj [("type", JStr "join"); ("id", JStr id)].
Definition msg_leave (id : Id) : jsval := JObj [("type", JStr "leave"); ("id", JStr id)].
Definition msg_state (id : Id) (data : jsval) : jsval :=
  JObj [("type", JStr "state"); ("id", JStr id); ("data", data)].
Definition msg_code (code : string) (prompt : jsval) (author : Id) : jsval :=
  JObj [("type", JStr "code"); ("code", JStr code); ("prompt", prompt);
        ("author", JStr author)].
Definition msg_code_error (error : string) (prompt : jsval) : jsval :=
  JObj [("type", JStr "code_error"); ("error", JStr error); ("prompt", prompt)].
Definition msg_narrative_result (settlementId result : jsval) : jsval :=
  JObj [("type", JStr "narrative_result"); ("settlementId", settlementId);
        ("result", result)].
Definition msg_narrative_error (settlementId : jsval) (error : string) : jsval :=
  JObj [("type", JStr "narrative_error"); ("settlementId", settlementId);
        ("error", JStr error)].

(** *** The backend's reply: [response.content[0].text.trim()] *)
Definition js_trim (v : jsval) : Res string :=
  match v with
  | JStr s => Ok (trim s)
  | JUndefined | JNull => Throw (TypeError "Cannot read properties of null or undefined")
  | _ => Throw (TypeError "trim is not a function")
  end.

Definition response_text (o : Outcome) : Res string :=
  match o with
  | Rejected e => Throw e
  | Resolved response =>
      content <- get response "content" ;;
      block <- get0 content ;;
      text <- get block "text" ;;
      js_trim text
  end.

(** *** handleAI *)

(** Up to the [await]: the request is issued and the frame suspends. *)
Definition handleAI (authorId : Id) (prompt apiKey : jsval) (w : World) : World :=
  set_pending (fun fs => fs ++ [AIFrame authorId prompt])
    (emit (MessagesCreate apiKey MODEL MAX_TOKENS AI_SYSTEM_PROMPT prompt) w).

(** The [catch] block. *)
Definition ai_failed (authorId : Id) (prompt : jsval) (e : Exn) (w : World) : World :=
  let w1 := log (LogAIError (message e)) w in
  match map_get authorId (players w1) with
  | Some p =>
      if is_open w1 p
      then ws_send (ws p) (JSON_stringify (msg_code_error (message e) prompt)) w1
      else w1
  | None => w1
  end.

(** From the [await] on, in the world the backend settles in. *)
Definition handleAI_settle (authorId : Id) (prompt : jsval) (o : Outcome) (w : World) : World :=
  match response_text o with
  | Ok text =>
      broadcastAll (msg_code (strip_fences ["javascript"; "js"] text) prompt authorId) w
  | Throw e => ai_failed authorId prompt e w
  end.

(** *** handleNarrative *)

(** [(v || []).map(f)] and [(v || []).join(sep)] need an array. *)
Definition js_items (v : jsval) (method : string) : Res (list jsval) :=
  match js_or v (JArr []) with
  | JArr items => Ok items
  | _ => Throw (TypeError (method ++ " is not a function")%string)
  end.

Definition has_key (k : string) (fields : list (string * jsval)) : bool :=
  existsb (fun kv => (fst kv =? k)%string) fields.

(** The string a template literal puts for [${v}].  Primitives always
    convert.  An array converts like [join(',')]: [null] and [undefined]
    elements print empty, the others convert in turn.  A parsed object has
    no callable [toString] of its own: with an own [toString] key (its value
    is data, never a function) the conversion finds nothing to call that
    returns a primitive and throws; without one it inherits the method that
    prints ["[object Object]"]. *)
Fixpoint ToString (v : jsval) : Res string :=
  match v with
  | JUndefined => Ok "undefined"
  | JNull => Ok "null"
  | JBool true => Ok "true"
  | JBool false => Ok "false"
  | JNum n => Ok (Number_toString n)
  | JStr s => Ok s
  | JArr items =>
      parts <- (fix each (l : list jsval) : Res (list string) :=
                  match l with
                  | [] => Ok []
                  | x :: rest =>
                      part <- match x with
                              | JUndefined | JNull => Ok ""
                              | _ => ToString x
                              end ;;
                      parts <- each rest ;;
                      Ok (part :: parts)
                  end) items ;;
      Ok (String.concat "," parts)
  | JObj fields =>
      if has_key "toString" fields
      then Throw (TypeError "Cannot convert object to primitive value")
      else Ok "[object Object]"
  end.

(** The arrow function mapped over [npcList]. *)
Definition npc_line (n : jsval) : Res string :=
  name <- get n "name" ;;
  name <- ToString name ;;
  role <- get n "role" ;;
  role <- ToString role ;;
  mood <- get n "mood" ;;
  mood <- ToString mood ;;
  Ok ("- " ++ name ++ " (" ++ role ++ ", mood: " ++ mood ++ ")")%string.

Fixpoint map_res {A B : Type} (f : A -> Res B) (l : list A) : Res (list B) :=
  match l with
  | [] => Ok []
  | a :: rest => b <- f a ;; bs <- map_res f rest ;; Ok (b :: bs)
  end.

(** An element of a joined array: [null] and [undefined] print empty. *)
Definition join_item (v : jsval) : Res string :=
  match v with
  | JUndefined | JNull => Ok ""
  | _ => ToString v
  end.

(** The template literal [userMessage]: the substitutions are evaluated
    and converted from left to right, and the first one that throws ends
    the evaluation. *)
Definition narrative_user_message (msg : jsval) : Res string :=
  name <- ToString (prop msg "name") ;;
  seed <- ToString (js_or (prop msg "storySeed") (JStr "(none provided)")) ;;
  npcs <- js_items (prop msg "npcList") "map" ;;
  lines <- map_res npc_line npcs ;;
  history <- js_items (prop msg "history") "join" ;;
  items <- map_res join_item history ;;
  events <- ToString (js_or (JStr (String.concat nl items))
                            (JStr "(first gathering)")) ;;
  current <- ToString (js_or (prop msg "currentNarrative")
                             (JStr "(none yet — this is the first gathering)")) ;;
  Ok ("Settlement: " ++ name ++ nl
      ++ "Story Seed: " ++ seed ++ nl
      ++ nl ++ "NPCs present:" ++ nl
      ++ String.concat nl lines ++ nl
      ++ nl ++ "Previous events:" ++ nl
      ++ events ++ nl
      ++ nl ++ "Current narrative:" ++ nl
      ++ current ++ nl
      ++ nl ++ "Write the next chapter of this village's story.")%string.

(** The [catch] block. *)
Definition narrative_failed (authorId : Id) (msg : jsval) (e : Exn) (w : World) : World :=
  let w1 := log (LogNarrativeError (prop msg "name") (message e)) w in
  match map_get authorId (players w1) with
  | Some p =>
      if is_open w1 p
      then ws_send (ws p)
             (JSON_stringify
                (msg_narrative_error (prop msg "settlementId") (message e))) w1
      else w1
  | None => w1
  end.

(** Up to the [await]: building the user message can already throw, in
    which case the [catch] block runs at once and nothing is requested. *)
Definition handleNarrative (authorId : Id) (msg : jsval) (w : World) : World :=
  match narrative_user_message msg with
  | Throw e => narrative_failed authorId msg e w
  | Ok userMessage =>
      set_pending (fun fs => fs ++ [NarrativeFrame authorId msg])
        (emit (MessagesCreate (prop msg "apiKey") MODEL MAX_TOKENS
                 NARRATIVE_SYSTEM_PROMPT (JStr userMessage)) w)
  end.

(** From the [await] on.  The closing [console.log] reads
    [result.summary] inside the same [try], after the broadcast. *)
Definition handleNarrative_settle (authorId : Id) (msg : jsval) (o : Outcome)
    (w : World) : World :=
  match response_text o with
  | Throw e => narrative_failed authorId msg e w
  | Ok text =>
      match JSON_parse (strip_fences ["json"] text) with
      | None => narrative_failed authorId msg (SyntaxError "Unexpected token") w
      | Some result =>
          let w1 := broadcastAll
                      (msg_narrative_result (prop msg "settlementId") result) w in
          match get result "summary" with
          | Ok summary => log (LogNarrativeResult (prop msg "name") summary) w1
          | Throw e => narrative_failed authorId msg e w1
          end
      end
  end.

(** *** The ['connection'] callback *)
Definition on_connection (s : Ws) (now : Z) (w : World) : World :=
  if map_size (players w) >=? MAX_PLAYERS then
    ws_close s (ws_send s (JSON_stringify msg_full) w)
  else
    let id := uuidv4 (uuid_calls w) in
    let w1 := tick_uuid w in
    let w2 := set_players (map_set id (mkPlayer s now JNull)) w1 in
    let w3 := ws_send s (JSON_stringify (msg_welcome id (getPlayerStates w2))) w2 in
    let w4 := broadcast (msg_join id) (Some id) w3 in
    add_listener s id w4.

(** *** The ['message'] callback of the connection that was given [id] *)
Definition on_message (id : Id) (s : Ws) (raw : string) (now : Z) (w : World) : World :=
  match JSON_parse raw with
  | None => log LogWSMessageError w
  | Some msg =>
      match get msg "type" with
      | Throw _ => log LogWSMessageError w
      | Ok type =>
          if is_str type "state" then
            let data := prop msg "data" in
            let w1 :=
              match map_get id (players w) with
              | Some p => set_players (map_set id (mkPlayer (ws p) now data)) w
              | None => w
              end in
            broadcast (msg_state id data) (Some id) w1
          else if is_str type "ai" && truthy (prop msg "prompt")
                  && truthy (prop msg "apiKey") then
            match js_slice0 (prop msg "prompt") PROMPT_LIMIT with
            | Throw _ => log LogWSMessageError w
            | Ok prompt =>
                handleAI id prompt (prop msg "apiKey") (log (LogAIRequest id prompt) w)
            end
          else if is_str type "ai" then
            ws_send s
              (JSON_stringify
                 (msg_code_error "Missing API key or prompt"
                    (js_or (prop msg "prompt") (JStr "")))) w
          else if is_str type "narrative" && truthy (prop msg "apiKey") then
            handleNarrative id msg (log (LogNarrativeRequest id (prop msg "name")) w)
          else w
      end
  end.

(** *** The ['close'] callback *)
Definition on_close (id : Id) (w : World) : World :=
  broadcast (msg_leave id) None (set_players (map_delete id) w).

(** *** Stale cleanup

    A [Map] iterator is live: it walks the entry list and skips entries
    deleted before it reaches them.  The loop adds nothing, so it reaches
    the keys present when it started, in order, and reads each entry as it
    stands at that moment. *)
Definition sweep_entry (now : Z) (id : Id) (w : World) : World :=
  match map_get id (players w) with
  | None => w
  | Some p =>
      if now - lastSeen p >? STALE_TIMEOUT then
        broadcast (msg_leave id) None
          (set_players (map_delete id) (ws_terminate (ws p) w))
      else w
  end.

Definition stale_cleanup (now : Z) (w : World) : World :=
  fold_left (fun w' id => sweep_entry now id w') (keys (players w)) w.

(** *** The event loop

    One event is one callback run to completion.  A socket delivers
    ['message'] and ['close'] to the listeners registered when it was
    admitted; a settled backend call resumes the frame that awaited it. *)
Inductive Event : Type :=
| Connection (s : Ws) (now : Z)
| Message (s : Ws) (raw : string) (now : Z)
| Close (s : Ws)
| Interval (now : Z)
| Settle (k : nat) (o : Outcome).

Definition listener_of (s : Ws) (w : World) : option Id :=
  match find (fun l => (fst l =? s)%nat) (listeners w) with
  | Some l => Some (snd l)
  | None => None
  end.

Definition resume (f : Closure) (o : Outcome) (w : World) : World :=
  match f with
  | AIFrame authorId prompt => handleAI_settle authorId prompt o w
  | NarrativeFrame authorId msg => handleNarrative_settle authorId msg o w
  end.

Definition step (ev : Event) (w : World) : World :=
  match ev with
  | Connection s now => on_connection s now w
  | Message s raw now =>
      match listener_of s w with
      | Some id => on_message id s raw now w
      | None => w
      end
  | Close s =>
      match listener_of s w with
      | Some id => on_close id (set_socket s (fun _ => CLOSED) w)
      | None => w
      end
  | Interval now => stale_cleanup now w
  | Settle k o =>
      match nth_error (pending w) k with
      | Some f =>
          resume f o (set_pending (fun fs => firstn k fs ++ skipn (S k) fs) w)
      | None => w
      end
  end.

Definition run (evs : list Event) (w : World) : World :=
  fold_left (fun w' ev => step ev w') evs w.

End Server.

Definition init : World :=
  mkWorld [] (fun _ => OPEN) 0 [] [] [] [].

(** ** Observations on a world *)

(** Appending a batch of effects. *)
Definition emit_all (es : list Effect) (w : World) : World :=
  mkWorld (players w) (sockets w) (uuid_calls w) (listeners w)
          (pending w) (effects w ++ es) (console w).

(** The messages pushed on socket [s], oldest first. *)
Fixpoint sent_to (s : Ws) (es : list Effect) : list string :=
  match es with
  | [] => []
  | WsSend s' raw :: rest =>
      if (s' =? s)%nat then raw :: sent_to s rest else sent_to s rest
  | _ :: rest => sent_to s rest
  end.

(** The sockets that were forcibly terminated, oldest first. *)
Fixpoint terminated (es : list Effect) : list Ws :=
  match es with
  | [] => []
  | WsTerminate s :: rest => s :: terminated rest
  | _ :: rest => terminated rest
  end.

(** The requests issued to the backend, oldest first. *)
Fixpoint backend_calls (es : list Effect) : list Effect :=
  match es with
  | [] => []
  | MessagesCreate k m t sys c :: rest =>
      MessagesCreate k m t sys c :: backend_calls rest
  | _ :: rest => backend_calls rest
  end.

(** One push of [raw] to each listed player, in order. *)
Definition fanout (raw : string) (l : list (Id * Player)) : list Effect :=
  List.map (fun e => WsSend (ws (snd e)) raw) l.

Definition is_stale (now : Z) (p : Player) : bool :=
  now - lastSeen p >? STALE_TIMEOUT.

Definition sockets_of (m : list (Id * Player)) : list Ws :=
  List.map (fun e => ws (snd e)) m.

(** The registry is a [Map] (no key twice) and no two players share a
    socket: each connection brings its own. *)
Definition wf (w : World) : Prop :=
  NoDup (keys (players w)) /\ NoDup (sockets_of (players w)).

(** The reply of a [catch] block: one push to the requester when it is
    still a key of the registry and its socket is open, nothing otherwise. *)
Definition reply_to (authorId : Id) (raw : string) (w : World) : list Effect :=
  match map_get authorId (players w) with
  | Some p => if is_open w p then [WsSend (ws p) raw] else []
  | None => []
  end.

(** The entries a fan-out without exclusion pushes to. *)
Definition open_players (w : World) : list (Id * Player) :=
  filter (fun e => is_open w (snd e)) (players w).

Section Notices.
Context {rt : Runtime}.

(** The [leave] messages of one sweep: one for each stale entry of [l], in
    registry order. *)
Definition leave_notices (now : Z) (l : list (Id * Player)) : list string :=
  List.map (fun id => JSON_stringify (msg_leave id))
    (keys (filter (fun e => is_stale now (snd e)) l)).

(** What the environment owes the server when it delivers an event: a new
    connection comes on a socket no registered player holds, and the
    identifier generator does not repeat a key in use. *)
Definition admissible (ev : Event) (w : World) : Prop :=
  match ev with
  | Connection s _ =>
      ~ In s (sockets_of (players w)) /\
      ~ In (uuidv4 (uuid_calls w)) (keys (players w))
  | _ => True
  end.

Fixpoint admissible_run (evs : list Event) (w : World) : Prop :=
  match evs with
  | [] => True
  | ev :: rest => admissible ev w /\ admissible_run rest (step ev w)
  end.

End Notices.

(** ** The deployment webhook

    [POST /webhook].  What it needs from the host: the keyed digest, as a
    function of key and data giving the hex string, and what happens when a
    shell command is run ([Throw] is the exception [execSync] raises on a
    failed or timed-out command). *)
Class Host : Type := {
  hmac_sha256_hex : string -> string -> string;
  execSync : string -> Res string
}.

Definition PULL_COMMAND : string :=
  "git pull origin main && npm install --production".
Definition RESTART_COMMAND : string := "pm2 restart logotopia".
Definition MAIN_REF : string := "refs/heads/main".

(** [res.status(code).send(text)] *)
Record Reply : Type := mkReply {
  status : Z;
  text : string
}.

Inductive HookLog : Type :=
| LogWebhookReceived
| LogPullComplete
| LogDeployFailed (msg : string).

(** What one run of the handler did: the replies it sent, the commands it
    ran, what it logged, and the exception that left it, if any. *)
Record Hook : Type := mkHook {
  replied : list Reply;
  ran : list string;
  logged : list HookLog;
  escaped : option Exn
}.

(** One thing the handler does. *)
Inductive HookAction : Type :=
| Replies (r : Reply)
| Runs (command : string)
| Logs (l : HookLog).

Fixpoint replies_of (t : list HookAction) : list Reply :=
  match t with
  | [] => []
  | Replies r :: rest => r :: replies_of rest
  | _ :: rest => replies_of rest
  end.

Fixpoint commands_of (t : list HookAction) : list string :=
  match t with
  | [] => []
  | Runs c :: rest => c :: commands_of rest
  | _ :: rest => commands_of rest
  end.

Fixpoint logs_of (t : list HookAction) : list HookLog :=
  match t with
  | [] => []
  | Logs l :: rest => l :: logs_of rest
  | _ :: rest => logs_of rest
  end.

Section Webhook.
Context {rt : Runtime} {host : Host}.

(** The expected header,
    ['sha256=' + createHmac('sha256', secret).update(JSON.stringify(body)).digest('hex')].
    [JSON.stringify(undefined)] is [undefined], which [update] refuses. *)
Definition expected_signature (secret : string) (body : jsval) : Res string :=
  match body with
  | JUndefined => Throw (TypeError "The data argument must be of type string")
  | _ => Ok ("sha256=" ++ hmac_sha256_hex secret (JSON_stringify body))%string
  end.

(** The [try] block of the deployment. *)
Definition deploy : list string * list HookLog :=
  match execSync PULL_COMMAND with
  | Throw e => ([PULL_COMMAND], [LogDeployFailed (message e)])
  | Ok _ =>
      match execSync RESTART_COMMAND with
      | Throw e =>
          ([PULL_COMMAND; RESTART_COMMAND],
           [LogPullComplete; LogDeployFailed (message e)])
      | Ok _ => ([PULL_COMMAND; RESTART_COMMAND], [LogPullComplete])
      end
  end.

(** From the signature check on: [signature] is the value of the
    [x-hub-signature-256] header ([undefined] when absent), [body] is
    [req.body]. *)
Definition after_signature (body : jsval) : Hook :=
  match get body "ref" with
  | Throw e => mkHook [] [] [] (Some e)
  | Ok ref =>
      if negb (is_str ref MAIN_REF) then mkHook [mkReply 200 "Ignored"] [] [] None
      else
        mkHook [mkReply 200 "Deploying"] (fst deploy)
               (LogWebhookReceived :: snd deploy) None
  end.

Definition webhook (secret : string) (signature body : jsval) : Hook :=
  if truthy (JStr secret) then
    let sig := js_or signature (JStr "") in
    match expected_signature secret body with
    | Throw e => mkHook [] [] [] (Some e)
    | Ok expected =>
        if negb (is_str sig expected) then mkHook [mkReply 403 "Bad signature"] [] [] None
        else after_signature body
    end
  else after_signature body.

(** The same handler as one chronological list of what it does, so that
    the order between the reply, the commands and the log lines is kept. *)
Definition deploy_trace : list HookAction :=
  match execSync PULL_COMMAND with
  | Throw e => [Runs PULL_COMMAND; Logs (LogDeployFailed (message e))]
  | Ok _ =>
      match execSync RESTART_COMMAND with
      | Throw e =>
          [Runs PULL_COMMAND; Logs LogPullComplete; Runs RESTART_COMMAND;
           Logs (LogDeployFailed (message e))]
      | Ok _ => [Runs PULL_COMMAND; Logs LogPullComplete; Runs RESTART_COMMAND]
      end
  end.

Definition after_signature_trace (body : jsval) : list HookAction :=
  match get body "ref" with
  | Throw _ => []
  | Ok ref =>
      if negb (is_str ref MAIN_REF) then [Replies (mkReply 200 "Ignored")]
      else
        Logs LogWebhookReceived :: Replies (mkReply 200 "Deploying") :: deploy_trace
  end.

Definition webhook_trace (secret : string) (signature body : jsval) : list HookAction :=
  if truthy (JStr secret) then
    let sig := js_or signature (JStr "") in
    match expected_signature secret body with
    | Throw _ => []
    | Ok expected =>
        if negb (is_str sig expected) then [Replies (mkReply 403 "Bad signature")]
        else after_signature_trace body
    end
  else after_signature_trace body.

End Webhook.

(** ** A sample runtime, for running the server on concrete inputs *)
Module Sample.

Definition q : string := String "034"%char EmptyString.

Fixpoint show (v : jsval) : string :=
  match v with
  | JUndefined => "undefined"
  | JNull => "null"
  | JBool true => "true"
  | JBool false => "false"
  | JNum n => if (n =? 0)%Z then "0" else if (n =? 1)%Z then "1" else "n"
  | JStr s => q ++ s ++ q
  | JArr items => "[" ++ String.concat "," (List.map show items) ++ "]"
  | JObj fields =>
      "{" ++ String.concat ","
               (List.map (fun kv => q ++ fst kv ++ q ++ ":" ++ show (snd kv)) fields)
          ++ "}"
  end%string.

(** Inbound frames are looked up in a small table. *)
Definition frames : list (string * jsval) :=
  [ ("state0", JObj [("type", JStr "state"); ("data", JNum 0)]);
    ("state1", JObj [("type", JStr "state"); ("data", JObj [("x", JNum 1)])]);
    ("ai", JObj [("type", JStr "ai"); ("prompt", JStr "add a moose");
                 ("apiKey", JStr "k")]);
    ("ai-nokey", JObj [("type", JStr "ai"); ("prompt", JStr "add a moose")]);
    ("narrative-nokey", JObj [("type", JStr "narrative"); ("name", JStr "Vik")]);
    ("narrative-bare", JObj [("type", JStr "narrative"); ("apiKey", JStr "k")]);
    ("{}", JObj []);
    ("null", JNull) ].

Definition parse (raw : string) : option jsval :=
  match find (fun f => (fst f =? raw)%string) frames with
  | Some f => Some (snd f)
  | None => None
  end.

Definition names : list Id :=
  ["a"; "b"; "c"; "d"; "e"; "f"; "g"; "h"; "i"; "j"; "k"; "l"].

Definition numeral (n : Z) : string :=
  if (n =? 0)%Z then "0" else if (n =? 1)%Z then "1" else "n".

Definition runtime : Runtime :=
  {| JSON_parse := parse;
     JSON_stringify := show;
     Number_toString := numeral;
     uuidv4 := fun n => nth n names "z" |}.

(** Three players admitted at times 0, 1 and 2. *)
Definition lobby : World :=
  @run runtime [Connection 1 0; Connection 2 1; Connection 3 2] init.

(** The same with the socket of the second one no longer open. *)
Definition lobby_b_closing : World := set_socket 2 shut lobby.

(** Eight players: the registry is full. *)
Definition full_house : World :=
  @run runtime (List.map (fun s => Connection s 0) (seq 1 8)) init.

(** The first player asked for code and left before the backend answered. *)
Definition asked_and_left : World :=
  @run runtime
    [Connection 1 0; Connection 2 0; Message 1 "ai" 1; Close 1] init.

(** The first player reported the snapshot [0]. *)
Definition zero_state : World :=
  @run runtime [Connection 1 0; Message 1 "state0" 3] init.

(** Two players; a sweep at 15001 evicts the first and keeps the second. *)
Definition after_sweep : World :=
  @run runtime [Connection 1 0; Connection 2 1; Interval 15001] init.

(** A backend reply whose first block carries [text]. *)
Definition reply (text : string) : Outcome :=
  Resolved (JObj [("content", JArr [JObj [("type", JStr "text");
                                          ("text", JStr text)]])]).

End Sample.

(** A string of white space only. *)
Definition blank (s : string) : bool :=
  forallb is_space (list_ascii_of_string s).

(** ** Further sample inputs *)
Module Cases.

(** A host whose commands succeed, and one whose pull fails. *)
Definition host : Host :=
  {| hmac_sha256_hex := fun key data => (key ++ ":" ++ data)%string;
     execSync := fun _ => Ok "" |}.

Definition host_pull_fails : Host :=
  {| hmac_sha256_hex := fun key data => (key ++ ":" ++ data)%string;
     execSync := fun c => if (c =? PULL_COMMAND)%string
                          then Throw (Error "Command failed")
                          else Ok "" |}.

Definition push_main : jsval := JObj [("ref", JStr "refs/heads/main")].
Definition push_branch : jsval := JObj [("ref", JStr "refs/heads/dev")].

(** The header a sender who knows the secret [s3cret] computes. *)
Definition signed_main : jsval :=
  JStr ("sha256=" ++ ("s3cret" ++ ":" ++ Sample.show push_main))%string.

(** More inbound frames, on top of the sample ones. *)
Definition frames : list (string * jsval) :=
  [ ("ai-number", JObj [("type", JStr "ai"); ("prompt", JNum 1);
                        ("apiKey", JStr "k")]);
    ("narrative-badlist", JObj [("type", JStr "narrative"); ("apiKey", JStr "k");
                                ("settlementId", JStr "vik");
                                ("npcList", JStr "everyone")]) ].

Definition parse (raw : string) : option jsval :=
  match find (fun f => (fst f =? raw)%string) frames with
  | Some f => Some (snd f)
  | None => Sample.parse raw
  end.

Definition runtime : Runtime :=
  {| JSON_parse := parse;
     JSON_stringify := Sample.show;
     Number_toString := Sample.numeral;
     uuidv4 := fun n => nth n Sample.names "z" |}.

(** Code in a fence, as backends tend to send it. *)
Definition fenced_code : string :=
  (" " ++ (fence ++ "js" ++ nl ++ "x=1" ++ nl ++ fence) ++ nl)%string.

Definition fenced_json : string :=
  ("" ++ (fence ++ "json" ++ nl ++ "{}" ++ nl ++ fence) ++ " ")%string.

(** A backend response whose first block carries [text]. *)
Definition response (text : string) : jsval :=
  JObj [("content", JArr [JObj [("type", JStr "text"); ("text", JStr text)]])].

(** A day of events on an empty server. *)
Definition day : list Event :=
  [Connection 1 0; Connection 2 1; Message 1 "state1" 2; Interval 20000;
   Connection 3 20001; Close 1].

End Cases.

(** * Properties *)

Section Router.
Context {rt : Runtime}.

Lemma world_eta (w : World) :
  mkWorld (players w) (sockets w) (uuid_calls w) (listeners w)
          (pending w) (effects w) (console w) = w.
Proof. destruct w; reflexivity. Qed.

Lemma emit_all_nil (w : World) : emit_all [] w = w.
Proof. unfold emit_all. rewrite app_nil_r. apply world_eta. Qed.

Lemma emit_all_app (es1 es2 : list Effect) (w : World) :
  emit_all es2 (emit_all es1 w) = emit_all (es1 ++ es2) w.
Proof. unfold emit_all; simpl. now rewrite app_assoc. Qed.

Lemma ws_send_emit_all (s : Ws) (raw : string) (w : World) :
  ws_send s raw w = emit_all [WsSend s raw] w.
Proof. reflexivity. Qed.

(** The loop of a fan-out over any entry list, from any world: a push
    changes no socket state, so the test each entry sees is the one of the
    starting world. *)
Lemma fan_loop (raw : string) (sel : Id * Player -> bool) (l : list (Id * Player)) :
  forall w,
    fold_left
      (fun w' e => if sel e && is_open w' (snd e)
                   then ws_send (ws (snd e)) raw w' else w') l w
    = emit_all (fanout raw (filter (fun e => sel e && is_open w (snd e)) l)) w.
Proof.
  induction l as [|e l IH]; intro w; simpl.
  - now rewrite emit_all_nil.
  - destruct (sel e && is_open w (snd e)) eqn:E.
    + rewrite IH, ws_send_emit_all, emit_all_app. reflexivity.
    + apply IH.
Qed.

Lemma broadcast_emit_all (msg : jsval) (excludeId : option Id) (w : World) :
  broadcast msg excludeId w
  = emit_all (fanout (JSON_stringify msg)
                (filter (fun e => differs (fst e) excludeId && is_open w (snd e))
                        (players w))) w.
Proof.
  unfold broadcast.
  apply (fan_loop (JSON_stringify msg) (fun e => differs (fst e) excludeId)).
Qed.

Lemma broadcastAll_emit_all (msg : jsval) (w : World) :
  broadcastAll msg w
  = emit_all (fanout (JSON_stringify msg)
                (filter (fun e => is_open w (snd e)) (players w))) w.
Proof.
  unfold broadcastAll.
  apply (fan_loop (JSON_stringify msg) (fun _ => true)).
Qed.

(** C7. A fan-out, with or without an exclusion, leaves the registry as it
    was and touches nothing but the effect log: for every entry of the
    registry, in order, it pushes the message if the entry is not the
    excluded one and its socket is open, and passes over it otherwise; an
    entry that is passed over stops nothing after it. *)
Theorem broadcast_frame (msg : jsval) (excludeId : option Id) (w : World) :
  players (broadcast msg excludeId w) = players w /\
  players (broadcastAll msg w) = players w /\
  sockets (broadcast msg excludeId w) = sockets w /\
  sockets (broadcastAll msg w) = sockets w /\
  effects (broadcast msg excludeId w)
  = effects w ++
    fanout (JSON_stringify msg)
      (filter (fun e => differs (fst e) excludeId && is_open w (snd e)) (players w)) /\
  effects (broadcastAll msg w)
  = effects w ++
    fanout (JSON_stringify msg) (filter (fun e => is_open w (snd e)) (players w)) /\
  (forall before e after,
      players w = before ++ e :: after ->
      is_open w (snd e) = false ->
      effects (broadcastAll msg w)
      = effects w ++
        fanout (JSON_stringify msg) (filter (fun e => is_open w (snd e)) before) ++
        fanout (JSON_stringify msg) (filter (fun e => is_open w (snd e)) after)).
Proof.
  rewrite broadcast_emit_all, broadcastAll_emit_all; simpl.
  repeat split; try reflexivity.
  intros before e after Hsplit Hclosed.
  rewrite Hsplit, filter_app; simpl. rewrite Hclosed.
  unfold fanout. now rewrite map_app.
Qed.

(** C8. [broadcastAll(msg)] and [broadcast(msg)] called without an
    excluded id are the same function of the world: same pushes, same
    sockets, same order. *)
Theorem broadcastAll_is_broadcast (msg : jsval) (w : World) :
  broadcastAll msg w = broadcast msg None w.
Proof.
  rewrite broadcast_emit_all, broadcastAll_emit_all. reflexivity.
Qed.

End Router.

(** ** Facts about the registry as a list and about effect logs *)

Section Registry.
Context {V : Type}.
Implicit Types (m : list (Id * V)) (k : Id) (v : V).

Lemma map_get_In m k v : map_get k m = Some v -> In (k, v) m.
Proof.
  induction m as [|[k' v'] m IH]; simpl; [discriminate|].
  destruct (String.eqb_spec k k') as [->|_].
  - intros [= ->]. now left.
  - intro H. right. now apply IH.
Qed.

Lemma In_map_get m k v : NoDup (keys m) -> In (k, v) m -> map_get k m = Some v.
Proof.
  induction m as [|[k' v'] m IH]; simpl; [contradiction|].
  intros Hnd [H|H].
  - injection H as -> ->. now rewrite String.eqb_refl.
  - inversion Hnd as [|? ? Hnotin Hnd']; subst.
    destruct (String.eqb_spec k k') as [->|_].
    + exfalso. apply Hnotin. change k' with (fst (k', v)). now apply in_map.
    + now apply IH.
Qed.

Lemma map_get_None m k : map_get k m = None <-> ~ In k (keys m).
Proof.
  induction m as [|[k' v'] m IH]; simpl.
  - tauto.
  - destruct (String.eqb_spec k k') as [->|Hne].
    + split; [discriminate | intro H; exfalso; apply H; now left].
    + rewrite IH. split.
      * intros H [E|E]; [now apply Hne | now apply H].
      * intros H E. apply H. now right.
Qed.

Lemma map_delete_filter m k :
  map_delete k m = filter (fun e => negb (fst e =? k)%string) m.
Proof.
  induction m as [|[k' v'] m IH]; simpl; [reflexivity|].
  rewrite (String.eqb_sym k' k).
  destruct (k =? k')%string; simpl; now rewrite IH.
Qed.

Lemma map_delete_absent m k : ~ In k (keys m) -> map_delete k m = m.
Proof.
  induction m as [|[k' v'] m IH]; simpl; [reflexivity|].
  intro H. destruct (String.eqb_spec k k') as [->|_].
  - exfalso. apply H. now left.
  - f_equal. apply IH. intro E. apply H. now right.
Qed.

Lemma map_get_set_same m k v : map_get k (map_set k v m) = Some v.
Proof.
  induction m as [|[k' v'] m IH]; simpl.
  - now rewrite String.eqb_refl.
  - destruct (String.eqb_spec k k') as [->|Hne]; simpl.
    + now rewrite String.eqb_refl.
    + destruct (String.eqb_spec k k'); [contradiction | exact IH].
Qed.

Lemma map_get_set_other m k k' v :
  k' <> k -> map_get k' (map_set k v m) = map_get k' m.
Proof.
  intro Hne. induction m as [|[k0 v0] m IH]; simpl.
  - destruct (String.eqb_spec k' k); [contradiction | reflexivity].
  - destruct (String.eqb_spec k k0) as [->|_]; simpl.
    + destruct (String.eqb_spec k' k0); [contradiction | reflexivity].
    + now rewrite IH.
Qed.

Lemma keys_map_set_present m k v :
  In k (keys m) -> keys (map_set k v m) = keys m.
Proof.
  induction m as [|[k0 v0] m IH]; simpl; [contradiction|].
  intro H. destruct (String.eqb_spec k k0) as [->|Hne]; simpl; [reflexivity|].
  f_equal. apply IH. destruct H as [H|H]; [now symmetry in H | exact H].
Qed.

Lemma map_set_absent m k v : ~ In k (keys m) -> map_set k v m = m ++ [(k, v)].
Proof.
  induction m as [|[k0 v0] m IH]; simpl; [reflexivity|].
  intro H. destruct (String.eqb_spec k k0) as [->|_].
  - exfalso. apply H. now left.
  - f_equal. apply IH. intro E. apply H. now right.
Qed.

(** Replacing the value under [k] is invisible to a selection that never
    picks the key [k]. *)
Lemma filter_map_set m k v (sel : Id * V -> bool) :
  (forall v', sel (k, v') = false) ->
  filter sel (map_set k v m) = filter sel m.
Proof.
  intro Hsel. induction m as [|[k0 v0] m IH]; simpl.
  - now rewrite Hsel.
  - destruct (String.eqb_spec k k0) as [->|_]; simpl.
    + now rewrite !Hsel.
    + now rewrite IH.
Qed.

End Registry.

Section Logs.

Lemma sent_to_app s es1 es2 :
  sent_to s (es1 ++ es2) = sent_to s es1 ++ sent_to s es2.
Proof.
  induction es1 as [|e es1 IH]; simpl; [reflexivity|].
  destruct e; simpl; try exact IH.
  destruct (s0 =? s)%nat; simpl; now rewrite IH.
Qed.

Lemma terminated_app es1 es2 :
  terminated (es1 ++ es2) = terminated es1 ++ terminated es2.
Proof.
  induction es1 as [|e es1 IH]; simpl; [reflexivity|].
  destruct e; simpl; now rewrite ?IH.
Qed.

Lemma backend_calls_app es1 es2 :
  backend_calls (es1 ++ es2) = backend_calls es1 ++ backend_calls es2.
Proof.
  induction es1 as [|e es1 IH]; simpl; [reflexivity|].
  destruct e; simpl; now rewrite ?IH.
Qed.

Lemma terminated_fanout raw l : terminated (fanout raw l) = [].
Proof. induction l; simpl; auto. Qed.

Lemma backend_calls_fanout raw l : backend_calls (fanout raw l) = [].
Proof. induction l; simpl; auto. Qed.

Lemma sent_to_fanout_absent s raw l :
  ~ In s (sockets_of l) -> sent_to s (fanout raw l) = [].
Proof.
  induction l as [|e l IH]; simpl; [reflexivity|].
  intro H. destruct (Nat.eqb_spec (ws (snd e)) s) as [E|_].
  - exfalso. apply H. now left.
  - apply IH. intro E. apply H. now right.
Qed.

Lemma sent_to_fanout_present e raw l :
  NoDup (sockets_of l) -> In e l ->
  sent_to (ws (snd e)) (fanout raw l) = [raw].
Proof.
  induction l as [|e' l IH]; simpl; [contradiction|].
  intros Hnd Hin. inversion Hnd as [|? ? Hnotin Hnd']; subst.
  destruct Hin as [->|Hin].
  - rewrite Nat.eqb_refl. f_equal. now apply sent_to_fanout_absent.
  - destruct (Nat.eqb_spec (ws (snd e')) (ws (snd e))) as [E|_].
    + exfalso. apply Hnotin. rewrite E. now apply (in_map (fun x : Id * Player => ws (snd x))).
    + now apply IH.
Qed.

Lemma sockets_of_filter_In s (sel : Id * Player -> bool) l :
  In s (sockets_of (filter sel l)) -> In s (sockets_of l).
Proof.
  unfold sockets_of. rewrite !in_map_iff.
  intros [e [E H]]. exists e. split; [exact E|].
  now apply filter_In in H.
Qed.

Lemma NoDup_sockets_filter (sel : Id * Player -> bool) l :
  NoDup (sockets_of l) -> NoDup (sockets_of (filter sel l)).
Proof.
  induction l as [|e l IH]; simpl; [auto|].
  intro Hnd. inversion Hnd as [|? ? Hnotin Hnd']; subst.
  destruct (sel e); simpl; [|now apply IH].
  constructor; [|now apply IH].
  intro H. apply Hnotin. now apply sockets_of_filter_In in H.
Qed.

Lemma keys_filter_In (sel : Id * Player -> bool) l k :
  In k (keys (filter sel l)) -> In k (keys l).
Proof.
  unfold keys. rewrite !in_map_iff.
  intros [e [E H]]. exists e. split; [exact E|].
  now apply filter_In in H.
Qed.

Lemma NoDup_keys_filter (sel : Id * Player -> bool) l :
  NoDup (keys l) -> NoDup (keys (filter sel l)).
Proof.
  induction l as [|e l IH]; simpl; [auto|].
  intro Hnd. inversion Hnd as [|? ? Hnotin Hnd']; subst.
  destruct (sel e); simpl; [|now apply IH].
  constructor; [|now apply IH].
  intro H. apply Hnotin. now apply keys_filter_In in H.
Qed.

(** With one socket per player, the socket names the entry. *)
Lemma socket_names_entry (l : list (Id * Player)) e1 e2 :
  NoDup (sockets_of l) -> In e1 l -> In e2 l ->
  ws (snd e1) = ws (snd e2) -> e1 = e2.
Proof.
  induction l as [|e l IH]; simpl; [contradiction|].
  intros Hnd H1 H2 E. inversion Hnd as [|? ? Hnotin Hnd']; subst.
  destruct H1 as [->|H1], H2 as [->|H2]; auto.
  - exfalso. apply Hnotin. rewrite E. now apply (in_map (fun x : Id * Player => ws (snd x))).
  - exfalso. apply Hnotin. rewrite <- E. now apply (in_map (fun x : Id * Player => ws (snd x))).
Qed.

End Logs.

(** ** The connection gate and the state relay *)

Section Handlers.
Context {rt : Runtime}.

(** C1. A connection that arrives while the registry holds 8 or more
    players is sent [full] and closed, and nothing else happens: the
    registry, the identifier generator, the listeners and the pending
    calls are as before.  One that arrives while it holds fewer draws the
    next identifier from the generator and is stored under it with its
    socket, the current time and no state; when the identifier is not
    already a key, that is a new entry at the end of the registry. *)
Theorem connection_gate (s : Ws) (now : Z) (w : World) :
  let w' := on_connection s now w in
  (map_size (players w) >= MAX_PLAYERS ->
     players w' = players w /\
     uuid_calls w' = uuid_calls w /\
     listeners w' = listeners w /\
     pending w' = pending w /\
     effects w' = effects w ++ [WsSend s (JSON_stringify msg_full); WsClose s]) /\
  (map_size (players w) < MAX_PLAYERS ->
     let id := uuidv4 (uuid_calls w) in
     uuid_calls w' = S (uuid_calls w) /\
     map_get id (players w') = Some (mkPlayer s now JNull) /\
     (~ In id (keys (players w)) ->
        players w' = players w ++ [(id, mkPlayer s now JNull)]) /\
     listeners w' = listeners w ++ [(s, id)]).
Proof.
  unfold on_connection. split; intro Hsize.
  - assert (E : (map_size (players w) >=? MAX_PLAYERS) = true)
      by (apply Z.geb_le; lia).
    rewrite E; simpl. rewrite <- app_assoc. now repeat split.
  - assert (E : (map_size (players w) >=? MAX_PLAYERS) = false).
    { destruct (map_size (players w) >=? MAX_PLAYERS) eqn:G; [|reflexivity].
      apply Z.geb_le in G. lia. }
    rewrite E. cbv zeta. rewrite broadcast_emit_all; simpl.
    repeat split.
    + apply map_get_set_same.
    + intro Hfresh. now apply map_set_absent.
Qed.

(** What the welcome carries: the entries of the registry whose stored
    state is truthy, in registration order.  The newcomer, stored with
    [null], is never among them. *)
Lemma welcome_roster (s : Ws) (now : Z) (w : World) :
  map_size (players w) < MAX_PLAYERS ->
  let id := uuidv4 (uuid_calls w) in
  ~ In id (keys (players w)) ->
  exists joins,
    effects (on_connection s now w)
    = effects w ++
      WsSend s (JSON_stringify
                  (msg_welcome id
                     (List.map roster_entry
                        (filter (fun e => truthy (state (snd e))) (players w)))))
      :: joins.
Proof.
  intros Hsize id Hfresh. unfold on_connection.
  assert (E : (map_size (players w) >=? MAX_PLAYERS) = false).
  { destruct (map_size (players w) >=? MAX_PLAYERS) eqn:G; [|reflexivity].
    apply Z.geb_le in G. lia. }
  rewrite E. cbv zeta. rewrite broadcast_emit_all; simpl.
  fold id. unfold getPlayerStates; simpl.
  rewrite (map_set_absent _ _ _ Hfresh), filter_app; simpl.
  rewrite app_nil_r, <- app_assoc; simpl. eauto.
Qed.

Lemma filter_not_excluded (id : Id) (w : World) (m : list (Id * Player)) :
  ~ In id (keys m) ->
  filter (fun e => differs (fst e) (Some id) && is_open w (snd e)) m
  = filter (fun e => is_open w (snd e)) m.
Proof.
  intro Habsent. apply filter_ext_in. intros e He.
  unfold differs. destruct (String.eqb_spec (fst e) id) as [E|_]; [|reflexivity].
  exfalso. apply Habsent. rewrite <- E. now apply (in_map fst).
Qed.

(** C4. A [state] message from a registered player [id]: its entry keeps
    its socket and its place, takes the current time as [lastSeen] and
    the payload as [state]; no other entry changes; and the [state]
    message with [id] and that payload is pushed once to each other entry
    whose socket is open, in order.  With one socket per player, each such
    player's socket gets exactly that one message and the sender's socket
    gets nothing. *)
Theorem state_relay (id : Id) (s : Ws) (raw : string) (now : Z) (w : World)
    (msg : jsval) (p : Player) :
  wf w ->
  JSON_parse raw = Some msg ->
  get msg "type" = Ok (JStr "state") ->
  map_get id (players w) = Some p ->
  let data := prop msg "data" in
  let out := JSON_stringify (msg_state id data) in
  let w' := on_message id s raw now w in
  map_get id (players w') = Some (mkPlayer (ws p) now data) /\
  (forall id', id' <> id -> map_get id' (players w') = map_get id' (players w)) /\
  keys (players w') = keys (players w) /\
  effects w'
  = effects w ++
    fanout out
      (filter (fun e => negb (fst e =? id)%string && is_open w (snd e)) (players w)) /\
  (forall id' p', In (id', p') (players w) -> id' <> id -> is_open w p' = true ->
     sent_to (ws p') (effects w') = sent_to (ws p') (effects w) ++ [out]) /\
  sent_to (ws p) (effects w') = sent_to (ws p) (effects w).
Proof.
  intros [Hkeys Hsocks] Hparse Htype Hget data out w'.
  assert (Hin : In (id, p) (players w)) by now apply map_get_In.
  assert (Hw' : w' = emit_all
            (fanout out
               (filter (fun e => negb (fst e =? id)%string && is_open w (snd e))
                       (players w)))
            (set_players (map_set id (mkPlayer (ws p) now data)) w)).
  { unfold w', on_message. rewrite Hparse, Htype; simpl. rewrite Hget.
    rewrite broadcast_emit_all; simpl. fold data out. f_equal. f_equal.
    apply (filter_map_set (players w) id (mkPlayer (ws p) now data)
             (fun e => negb (fst e =? id)%string && is_open w (snd e))).
    intro v'. simpl. now rewrite String.eqb_refl. }
  rewrite Hw'; simpl. repeat split.
  - apply map_get_set_same.
  - intros id' Hne. now apply map_get_set_other.
  - apply keys_map_set_present. now apply (in_map fst) in Hin.
  - intros id' p' Hin' Hne Hopen. rewrite sent_to_app. f_equal.
    apply (sent_to_fanout_present (id', p')).
    + now apply NoDup_sockets_filter.
    + apply filter_In. split; [exact Hin'|]. simpl. rewrite Hopen.
      destruct (String.eqb_spec id' id); [contradiction | reflexivity].
  - rewrite sent_to_app, sent_to_fanout_absent; [apply app_nil_r|].
    intro H. unfold sockets_of in H. apply in_map_iff in H.
    destruct H as [e [E He]]. apply filter_In in He. destruct He as [He Hsel].
    assert (e = (id, p))
      by (apply (socket_names_entry (players w)); auto).
    subst e. simpl in Hsel. now rewrite String.eqb_refl in Hsel.
Qed.

(** C10. A [state] message handled for an [id] that is no longer a key of
    the registry changes no entry, and the [state] message under that id
    is still pushed once to every entry whose socket is open. *)
Theorem state_after_removal (id : Id) (s : Ws) (raw : string) (now : Z) (w : World)
    (msg : jsval) :
  JSON_parse raw = Some msg ->
  get msg "type" = Ok (JStr "state") ->
  map_get id (players w) = None ->
  let w' := on_message id s raw now w in
  players w' = players w /\
  effects w'
  = effects w ++
    fanout (JSON_stringify (msg_state id (prop msg "data")))
      (filter (fun e => is_open w (snd e)) (players w)).
Proof.
  intros Hparse Htype Hget w'. unfold w', on_message.
  rewrite Hparse, Htype; simpl. rewrite Hget, broadcast_emit_all; simpl.
  split; [reflexivity|]. f_equal. f_equal.
  apply filter_not_excluded. now apply map_get_None.
Qed.

End Handlers.

(** ** The stale sweep *)

Section Reaper.
Context {rt : Runtime}.

Lemma map_delete_middle {V : Type} (done rest : list (Id * V)) (k : Id) (v : V) :
  NoDup (keys (done ++ (k, v) :: rest)) ->
  map_delete k (done ++ (k, v) :: rest) = done ++ rest.
Proof.
  intro Hnd. unfold keys in Hnd. rewrite map_app in Hnd. simpl in Hnd.
  apply NoDup_remove_2 in Hnd.
  assert (Hd : ~ In k (keys done)) by (intro H; apply Hnd, in_or_app; now left).
  assert (Hr : ~ In k (keys rest)) by (intro H; apply Hnd, in_or_app; now right).
  rewrite !map_delete_filter, filter_app; simpl.
  rewrite String.eqb_refl; simpl.
  rewrite <- !map_delete_filter, !map_delete_absent; auto.
Qed.

(** Evicting one stale entry. *)
Lemma sweep_entry_evict (now : Z) (id : Id) (p : Player) (w : World) :
  map_get id (players w) = Some p ->
  is_stale now p = true ->
  let w0 := set_players (map_delete id) (set_socket (ws p) shut w) in
  sweep_entry now id w
  = emit_all
      (WsTerminate (ws p)
       :: fanout (JSON_stringify (msg_leave id))
            (filter (fun e => is_open w0 (snd e)) (players w0)))
      w0.
Proof.
  intros Hget Hstale w0. unfold sweep_entry. rewrite Hget.
  unfold is_stale in Hstale. rewrite Hstale.
  rewrite broadcast_emit_all. unfold emit_all; simpl.
  now rewrite <- app_assoc.
Qed.

Lemma sweep_entry_keep (now : Z) (id : Id) (p : Player) (w : World) :
  map_get id (players w) = Some p ->
  is_stale now p = false ->
  sweep_entry now id w = w.
Proof.
  intros Hget Hfresh. unfold sweep_entry. rewrite Hget.
  unfold is_stale in Hfresh. now rewrite Hfresh.
Qed.


(** The loop, started anywhere in the registry: [done] are the entries
    already passed and kept, [todo] the ones still to visit. *)
Lemma sweep_loop (now : Z) (todo : list (Id * Player)) :
  forall (done : list (Id * Player)) (w : World),
    players w = done ++ todo ->
    NoDup (keys (done ++ todo)) ->
    NoDup (sockets_of (done ++ todo)) ->
    let w' := fold_left (fun w' id => sweep_entry now id w') (keys todo) w in
    players w' = done ++ filter (fun e => negb (is_stale now (snd e))) todo /\
    terminated (effects w')
    = terminated (effects w)
      ++ sockets_of (filter (fun e => is_stale now (snd e)) todo) /\
    backend_calls (effects w') = backend_calls (effects w) /\
    (forall e, In e (done ++ todo) -> is_stale now (snd e) = false ->
       sockets w' (ws (snd e)) = sockets w (ws (snd e)) /\
       (is_open w (snd e) = true ->
        sent_to (ws (snd e)) (effects w')
        = sent_to (ws (snd e)) (effects w) ++ leave_notices now todo)).
Proof.
  induction todo as [|[id p] rest IH]; intros done w Hpl Hkeys Hsocks; simpl.
  - rewrite app_nil_r in Hpl. unfold leave_notices; simpl.
    rewrite !app_nil_r. repeat split; auto.
    intros _. now rewrite app_nil_r.
  - assert (Hin : In (id, p) (players w))
      by (rewrite Hpl; apply in_or_app; right; now left).
    assert (Hget : map_get id (players w) = Some p)
      by (apply In_map_get; [now rewrite Hpl | exact Hin]).
    destruct (is_stale now p) eqn:Hstale; simpl.
    + (* evicted *)
      rewrite (sweep_entry_evict now id p w Hget Hstale).
      set (w0 := set_players (map_delete id) (set_socket (ws p) shut w)).
      set (out := fanout (JSON_stringify (msg_leave id))
                    (filter (fun e => is_open w0 (snd e)) (players w0))).
      assert (Hpl0 : players w0 = done ++ rest).
      { unfold w0; simpl. rewrite Hpl. now apply map_delete_middle. }
      assert (Hkeys' : NoDup (keys (done ++ rest))).
      { unfold keys in *. rewrite map_app in *. simpl in Hkeys.
        now apply NoDup_remove_1 in Hkeys. }
      assert (Hsocks' : NoDup (sockets_of (done ++ rest))).
      { unfold sockets_of in *. rewrite map_app in *. simpl in Hsocks.
        now apply NoDup_remove_1 in Hsocks. }
      destruct (IH done (emit_all (WsTerminate (ws p) :: out) w0))
        as (Hp & Ht & Hb & Hs); auto.
      split; [exact Hp|]. split; [|split].
      * rewrite Ht; simpl. rewrite terminated_app; simpl.
        unfold out. rewrite terminated_fanout, <- app_assoc. reflexivity.
      * rewrite Hb; simpl. rewrite backend_calls_app; simpl.
        unfold out. now rewrite backend_calls_fanout, app_nil_r.
      * intros e He Hfresh.
        assert (He' : In e (done ++ rest)).
        { apply in_app_or in He. apply in_or_app.
          destruct He as [He|[He|He]]; auto.
          subst e. simpl in Hfresh. congruence. }
        assert (Hne : ws (snd e) <> ws p).
        { intro E.
          assert (e = (id, p)).
          { apply (socket_names_entry (done ++ (id, p) :: rest)); auto.
            apply in_or_app; right; now left. }
          subst e. simpl in Hfresh. congruence. }
        assert (Hsame : sockets w0 (ws (snd e)) = sockets w (ws (snd e))).
        { unfold w0; simpl.
          destruct (Nat.eqb_spec (ws (snd e)) (ws p)); [contradiction|].
          reflexivity. }
        destruct (Hs e He' Hfresh) as [Hsock Hsent]. split.
        -- rewrite Hsock; simpl. exact Hsame.
        -- intro Hopen.
           assert (Hopen0 : is_open w0 (snd e) = true)
             by (unfold is_open in *; now rewrite Hsame).
           rewrite Hsent by exact Hopen0. simpl.
           rewrite sent_to_app; simpl.
           unfold out. rewrite (sent_to_fanout_present e).
           ++ unfold leave_notices; simpl. rewrite Hstale; simpl.
              now rewrite <- app_assoc.
           ++ apply NoDup_sockets_filter. now rewrite Hpl0.
           ++ apply filter_In. split; [now rewrite Hpl0 | exact Hopen0].
    + (* kept *)
      rewrite (sweep_entry_keep now id p w Hget Hstale).
      destruct (IH (done ++ [(id, p)]) w) as (Hp & Ht & Hb & Hs);
        try (rewrite <- app_assoc; simpl; assumption).
      split; [|split; [exact Ht|split; [exact Hb|]]].
      * rewrite Hp, <- app_assoc. reflexivity.
      * intros e He Hfresh.
        assert (He' : In e ((done ++ [(id, p)]) ++ rest))
          by (rewrite <- app_assoc; exact He).
        destruct (Hs e He' Hfresh) as [Hsock Hsent]. split; [exact Hsock|].
        intro Hopen. rewrite Hsent by exact Hopen.
        unfold leave_notices; simpl. now rewrite Hstale.
Qed.

(** Within one run of the interval callback on a well-formed registry.
    The entries that stay are exactly those with
    [now - lastSeen <= 15000], unchanged and in their order; every entry
    with [now - lastSeen > 15000] is gone, and its socket was terminated
    once, in registry order.  Every entry that stays keeps its socket
    state and, when its socket is open, is sent by this callback exactly
    one [leave] message per evicted id, in eviction order, and nothing
    else. *)
Theorem reaper_sweep (now : Z) (w : World) :
  wf w ->
  let w' := stale_cleanup now w in
  (forall p, is_stale now p = true <-> now - lastSeen p > 15000) /\
  players w' = filter (fun e => negb (is_stale now (snd e))) (players w) /\
  (forall id p, In (id, p) (players w) -> is_stale now p = true ->
     map_get id (players w') = None) /\
  terminated (effects w')
  = terminated (effects w)
    ++ sockets_of (filter (fun e => is_stale now (snd e)) (players w)) /\
  NoDup (keys (filter (fun e => is_stale now (snd e)) (players w))) /\
  (forall e, In e (players w) -> is_stale now (snd e) = false ->
     In e (players w') /\
     sockets w' (ws (snd e)) = sockets w (ws (snd e)) /\
     ~ In (ws (snd e))
          (sockets_of (filter (fun e => is_stale now (snd e)) (players w))) /\
     (is_open w (snd e) = true ->
      sent_to (ws (snd e)) (effects w')
      = sent_to (ws (snd e)) (effects w) ++ leave_notices now (players w))).
Proof.
  intros [Hkeys Hsocks] w'.
  destruct (sweep_loop now (players w) [] w eq_refl Hkeys Hsocks)
    as (Hp & Ht & _ & Hs).
  fold (stale_cleanup now w) in Hp, Ht, Hs. fold w' in Hp, Ht, Hs.
  simpl in Hp, Hs.
  split.
  { intro p. unfold is_stale, STALE_TIMEOUT. rewrite Z.gtb_lt. lia. }
  split; [exact Hp|]. split.
  { intros id p Hin Hstale. apply map_get_None. rewrite Hp.
    intro H. unfold keys in H. apply in_map_iff in H.
    destruct H as [[id' p'] [E H]]. simpl in E. subst id'.
    apply filter_In in H. destruct H as [H Hfresh].
    assert (Hsame : Some p' = Some p).
    { rewrite <- (In_map_get (players w) id p' Hkeys H).
      now apply In_map_get. }
    injection Hsame as ->. simpl in Hfresh. now rewrite Hstale in Hfresh. }
  split; [exact Ht|]. split; [now apply NoDup_keys_filter|].
  intros e He Hfresh. destruct (Hs e He Hfresh) as [Hsock Hsent].
  split; [|split; [exact Hsock|split; [|exact Hsent]]].
  - rewrite Hp. apply filter_In. split; [exact He|]. now rewrite Hfresh.
  - intro H. unfold sockets_of in H. apply in_map_iff in H.
    destruct H as [e' [E H]]. apply filter_In in H. destruct H as [H Hstale].
    assert (e' = e) by (apply (socket_names_entry (players w)); auto).
    subst e'. congruence.
Qed.

End Reaper.

(** ** The external-request pipeline *)

Section Pipeline.
Context {rt : Runtime}.



Lemma truthy_str (s : string) : s <> "" -> truthy (JStr s) = true.
Proof.
  intro H. simpl. destruct (String.eqb_spec s ""); [contradiction | reflexivity].
Qed.

(** What a resumed code-generation frame does, case by case. *)
Lemma handleAI_settle_ok (authorId : Id) (prompt : jsval) (o : Outcome) (w : World)
    (text : string) :
  response_text o = Ok text ->
  handleAI_settle authorId prompt o w
  = emit_all
      (fanout (JSON_stringify
                 (msg_code (strip_fences ["javascript"; "js"] text) prompt authorId))
         (filter (fun e => is_open w (snd e)) (players w))) w.
Proof.
  intro H. unfold handleAI_settle. rewrite H. apply broadcastAll_emit_all.
Qed.

Lemma ai_failed_emit_all (authorId : Id) (prompt : jsval) (e : Exn) (w : World) :
  ai_failed authorId prompt e w
  = log (LogAIError (message e))
      (emit_all (reply_to authorId
                   (JSON_stringify (msg_code_error (message e) prompt)) w) w).
Proof.
  unfold ai_failed, reply_to; simpl.
  destruct (map_get authorId (players w)) as [p|].
  - unfold is_open; simpl. destruct (readyState_code (sockets w (ws p)) =? 1).
    + reflexivity.
    + unfold log, emit_all; simpl. now rewrite app_nil_r.
  - unfold log, emit_all; simpl. now rewrite app_nil_r.
Qed.

Lemma narrative_failed_emit_all (authorId : Id) (msg : jsval) (e : Exn) (w : World) :
  narrative_failed authorId msg e w
  = log (LogNarrativeError (prop msg "name") (message e))
      (emit_all (reply_to authorId
                   (JSON_stringify
                      (msg_narrative_error (prop msg "settlementId") (message e)))
                   w) w).
Proof.
  unfold narrative_failed, reply_to; simpl.
  destruct (map_get authorId (players w)) as [p|].
  - unfold is_open; simpl. destruct (readyState_code (sockets w (ws p)) =? 1).
    + reflexivity.
    + unfold log, emit_all; simpl. now rewrite app_nil_r.
  - unfold log, emit_all; simpl. now rewrite app_nil_r.
Qed.

(** C3, as the code has it.  When the backend's reply yields a text, the
    [code] message is pushed once to every registered player whose socket
    is open (the requester among them when it is one), and nothing else is
    sent; likewise the [narrative_result] message when that text parses to
    a value other than [null] (and [undefined], which [JSON.parse] never
    returns).  When the call is rejected, or the reply
    has no usable text, or (narrative) the text does not parse, nothing is
    broadcast: the one error message goes to the requester's socket if the
    requester is still registered with an open socket, and otherwise
    nothing is sent at all.  The registry is the same afterwards. *)
Theorem pipeline_outcome (authorId : Id) (prompt msg : jsval) (o : Outcome) (w : World) :
  (forall text, response_text o = Ok text ->
     effects (handleAI_settle authorId prompt o w)
     = effects w ++
       fanout (JSON_stringify
                 (msg_code (strip_fences ["javascript"; "js"] text) prompt authorId))
         (open_players w)) /\
  (forall e, response_text o = Throw e ->
     effects (handleAI_settle authorId prompt o w)
     = effects w ++
       reply_to authorId (JSON_stringify (msg_code_error (message e) prompt)) w) /\
  (forall text result,
     response_text o = Ok text ->
     JSON_parse (strip_fences ["json"] text) = Some result ->
     result <> JNull -> result <> JUndefined ->
     effects (handleNarrative_settle authorId msg o w)
     = effects w ++
       fanout (JSON_stringify
                 (msg_narrative_result (prop msg "settlementId") result))
         (open_players w)) /\
  (forall e, response_text o = Throw e ->
     effects (handleNarrative_settle authorId msg o w)
     = effects w ++
       reply_to authorId
         (JSON_stringify
            (msg_narrative_error (prop msg "settlementId") (message e))) w) /\
  (forall text,
     response_text o = Ok text ->
     JSON_parse (strip_fences ["json"] text) = None ->
     exists e,
       effects (handleNarrative_settle authorId msg o w)
       = effects w ++
         reply_to authorId
           (JSON_stringify
              (msg_narrative_error (prop msg "settlementId") (message e))) w) /\
  players (handleAI_settle authorId prompt o w) = players w /\
  players (handleNarrative_settle authorId msg o w) = players w /\
  (forall raw, reply_to authorId raw w = [] \/
     exists p, map_get authorId (players w) = Some p /\ is_open w p = true /\
               reply_to authorId raw w = [WsSend (ws p) raw]).
Proof.
  split; [|split; [|split; [|split; [|split; [|split; [|split]]]]]].
  - intros text H. now rewrite (handleAI_settle_ok _ _ _ _ _ H).
  - intros e H. unfold handleAI_settle. rewrite H.
    now rewrite ai_failed_emit_all.
  - intros text result H Hparse Hnull Hundef. unfold handleNarrative_settle.
    rewrite H, Hparse, broadcastAll_emit_all.
    destruct result; try contradiction; reflexivity.
  - intros e H. unfold handleNarrative_settle. rewrite H.
    now rewrite narrative_failed_emit_all.
  - intros text H Hparse. unfold handleNarrative_settle. rewrite H, Hparse.
    eexists. now rewrite narrative_failed_emit_all.
  - unfold handleAI_settle. destruct (response_text o).
    + now rewrite broadcastAll_emit_all.
    + now rewrite ai_failed_emit_all.
  - unfold handleNarrative_settle. destruct (response_text o) as [text|e].
    + destruct (JSON_parse (strip_fences ["json"] text)) as [result|].
      * rewrite broadcastAll_emit_all.
        destruct (get result "summary"); [reflexivity|].
        now rewrite narrative_failed_emit_all.
      * now rewrite narrative_failed_emit_all.
    + now rewrite narrative_failed_emit_all.
  - intro raw. unfold reply_to.
    destruct (map_get authorId (players w)) as [p|]; [|now left].
    destruct (is_open w p) eqn:E; [|now left].
    right. exists p. auto.
Qed.

(** A falsy value is a primitive, and primitives always convert. *)
Lemma ToString_falsy (v : jsval) :
  truthy v = false -> exists text, ToString v = Ok text.
Proof.
  destruct v as [| |b|n|t|items|fields]; simpl; try discriminate; eauto.
  destruct b; eauto.
Qed.

(** With no context field present the user message is built from the
    defaults and cannot throw. *)
Lemma narrative_without_context (msg : jsval) :
  truthy (prop msg "name") = false ->
  truthy (prop msg "storySeed") = false ->
  truthy (prop msg "npcList") = false ->
  truthy (prop msg "history") = false ->
  truthy (prop msg "currentNarrative") = false ->
  exists content, narrative_user_message msg = Ok content.
Proof.
  intros Hname Hseed Hnpcs Hhistory Hcurrent.
  destruct (ToString_falsy _ Hname) as [name Hn].
  unfold narrative_user_message, js_items, js_or.
  rewrite Hn, Hseed, Hnpcs, Hhistory, Hcurrent; simpl. eauto.
Qed.


(** C2, as the code has it.  An [ai] message whose prompt or key is
    missing (falsy) gets the [code_error] reply pushed on its own
    connection at once, with the received prompt or the empty string, and
    nothing else happens: no backend request, no suspended frame, no change
    to the registry.  A [narrative] message whose key is missing issues no
    backend request and suspends no frame.  One that has a key is forwarded
    to the backend even when every context field (name, story seed, list of
    villagers, history, current narrative) is absent: the context is
    optional. *)
Theorem missing_field_rejection (id : Id) (s : Ws) (raw : string) (now : Z)
    (w : World) (msg : jsval) :
  JSON_parse raw = Some msg ->
  let w' := on_message id s raw now w in
  (get msg "type" = Ok (JStr "ai") ->
   truthy (prop msg "prompt") && truthy (prop msg "apiKey") = false ->
   effects w'
   = effects w ++
     [WsSend s (JSON_stringify
                  (msg_code_error "Missing API key or prompt"
                     (js_or (prop msg "prompt") (JStr ""))))] /\
   backend_calls (effects w') = backend_calls (effects w) /\
   pending w' = pending w /\
   players w' = players w) /\
  (get msg "type" = Ok (JStr "narrative") ->
   truthy (prop msg "apiKey") = false ->
   backend_calls (effects w') = backend_calls (effects w) /\
   pending w' = pending w /\
   players w' = players w) /\
  (get msg "type" = Ok (JStr "narrative") ->
   truthy (prop msg "apiKey") = true ->
   truthy (prop msg "name") = false ->
   truthy (prop msg "storySeed") = false ->
   truthy (prop msg "npcList") = false ->
   truthy (prop msg "history") = false ->
   truthy (prop msg "currentNarrative") = false ->
   exists content,
     effects w'
     = effects w ++
       [MessagesCreate (prop msg "apiKey") MODEL MAX_TOKENS NARRATIVE_SYSTEM_PROMPT
          (JStr content)] /\
     pending w' = pending w ++ [NarrativeFrame id msg]).
Proof.
  intros Hparse w'. unfold w', on_message. rewrite Hparse.
  split; [|split].
  - intros Htype Hmissing. rewrite Htype; simpl. rewrite Hmissing; simpl.
    rewrite backend_calls_app; simpl. now rewrite app_nil_r.
  - intros Htype Hmissing. rewrite Htype; simpl. rewrite Hmissing; simpl.
    auto.
  - intros Htype Hkey Hname Hseed Hnpcs Hhistory Hcurrent.
    rewrite Htype; simpl. rewrite Hkey; simpl.
    destruct (narrative_without_context msg Hname Hseed Hnpcs Hhistory Hcurrent)
      as [content Hcontent].
    unfold handleNarrative. rewrite Hcontent; simpl. eauto.
Qed.

End Pipeline.

(** ** Well-formedness is an invariant of the event loop *)

Section Invariant.
Context {rt : Runtime}.

Lemma players_handleAI_settle (authorId : Id) (prompt : jsval) (o : Outcome) (w : World) :
  players (handleAI_settle authorId prompt o w) = players w.
Proof.
  unfold handleAI_settle. destruct (response_text o).
  - now rewrite broadcastAll_emit_all.
  - now rewrite ai_failed_emit_all.
Qed.

Lemma players_handleNarrative_settle (authorId : Id) (msg : jsval) (o : Outcome)
    (w : World) :
  players (handleNarrative_settle authorId msg o w) = players w.
Proof.
  unfold handleNarrative_settle. destruct (response_text o) as [text|e].
  - destruct (JSON_parse (strip_fences ["json"] text)) as [result|].
    + rewrite broadcastAll_emit_all.
      destruct (get result "summary"); [reflexivity|].
      now rewrite narrative_failed_emit_all.
    + now rewrite narrative_failed_emit_all.
  - now rewrite narrative_failed_emit_all.
Qed.

Lemma players_handleNarrative (authorId : Id) (msg : jsval) (w : World) :
  players (handleNarrative authorId msg w) = players w.
Proof.
  unfold handleNarrative. destruct (narrative_user_message msg).
  - reflexivity.
  - now rewrite narrative_failed_emit_all.
Qed.

(** A message changes the registry in one way only: a [state] message
    from a registered player rewrites that player's entry, keeping its
    socket. *)
Lemma players_on_message (id : Id) (s : Ws) (raw : string) (now : Z) (w : World) :
  players (on_message id s raw now w) = players w \/
  exists p data,
    map_get id (players w) = Some p /\
    players (on_message id s raw now w)
    = map_set id (mkPlayer (ws p) now data) (players w).
Proof.
  unfold on_message.
  destruct (JSON_parse raw) as [msg|]; [|now left].
  destruct (get msg "type") as [type|]; [|now left].
  destruct (is_str type "state").
  - rewrite broadcast_emit_all; simpl.
    destruct (map_get id (players w)) as [p|] eqn:E; [|now left].
    right. exists p, (prop msg "data"). auto.
  - left.
    destruct (is_str type "ai" && truthy (prop msg "prompt")
              && truthy (prop msg "apiKey")).
    + destruct (js_slice0 (prop msg "prompt") PROMPT_LIMIT); reflexivity.
    + destruct (is_str type "ai"); [reflexivity|].
      destruct (is_str type "narrative" && truthy (prop msg "apiKey"));
        [|reflexivity].
      now rewrite players_handleNarrative.
Qed.

Lemma players_on_close (id : Id) (w : World) :
  players (on_close id w) = filter (fun e => negb (fst e =? id)%string) (players w).
Proof.
  unfold on_close. rewrite broadcast_emit_all; simpl. apply map_delete_filter.
Qed.

Lemma players_stale_cleanup (now : Z) (w : World) :
  wf w ->
  players (stale_cleanup now w)
  = filter (fun e => negb (is_stale now (snd e))) (players w).
Proof.
  intros [Hkeys Hsocks].
  now destruct (sweep_loop now (players w) [] w eq_refl Hkeys Hsocks) as [Hp _].
Qed.

Lemma players_on_connection (s : Ws) (now : Z) (w : World) :
  players (on_connection s now w) = players w \/
  players (on_connection s now w)
  = map_set (uuidv4 (uuid_calls w)) (mkPlayer s now JNull) (players w).
Proof.
  unfold on_connection. destruct (map_size (players w) >=? MAX_PLAYERS).
  - now left.
  - right. cbv zeta. now rewrite broadcast_emit_all.
Qed.

Lemma sockets_of_map_set_same (m : list (Id * Player)) (id : Id) (p v : Player) :
  map_get id m = Some p -> ws v = ws p ->
  sockets_of (map_set id v m) = sockets_of m.
Proof.
  intros Hget Hws. induction m as [|[k q] m IH]; simpl in *; [discriminate|].
  destruct (id =? k)%string; simpl.
  - injection Hget as ->. now rewrite Hws.
  - now rewrite IH.
Qed.

Lemma wf_filter (sel : Id * Player -> bool) (m : list (Id * Player)) :
  NoDup (keys m) /\ NoDup (sockets_of m) ->
  NoDup (keys (filter sel m)) /\ NoDup (sockets_of (filter sel m)).
Proof.
  intros [Hk Hs]. split; [now apply NoDup_keys_filter | now apply NoDup_sockets_filter].
Qed.

Lemma NoDup_snoc {A : Type} (l : list A) (a : A) :
  NoDup l -> ~ In a l -> NoDup (l ++ [a]).
Proof.
  intros Hl Ha. apply NoDup_app; [exact Hl | repeat constructor; auto |].
  intros b Hb [->|[]]. contradiction.
Qed.

(** Every callback keeps the registry well-formed, provided a new
    connection comes with a socket no registered player holds and the
    generator returns an identifier that is not a key. *)
Theorem wf_step (ev : Event) (w : World) :
  wf w -> admissible ev w -> wf (step ev w).
Proof.
  intros Hwf Hadm. destruct ev as [s now|s raw now|s|now|k o]; simpl.
  - destruct Hadm as [Hsock Hid]. destruct Hwf as [Hk Hs].
    unfold wf. destruct (players_on_connection s now w) as [-> | ->]; [now split|].
    rewrite (map_set_absent _ _ _ Hid). unfold keys, sockets_of.
    rewrite !map_app; simpl. split; now apply NoDup_snoc.
  - destruct (listener_of s w) as [id|]; [|exact Hwf].
    unfold wf. destruct Hwf as [Hk Hs].
    destruct (players_on_message id s raw now w) as [-> | (p & data & Hget & ->)];
      [now split|].
    split.
    + rewrite keys_map_set_present; [exact Hk|].
      apply map_get_In in Hget. now apply (in_map fst) in Hget.
    + now rewrite (sockets_of_map_set_same _ _ p).
  - destruct (listener_of s w) as [id|]; [|exact Hwf].
    unfold wf. rewrite players_on_close; simpl. now apply wf_filter.
  - unfold wf. rewrite (players_stale_cleanup now w Hwf). now apply wf_filter.
  - destruct (nth_error (pending w) k) as [[authorId prompt|authorId msg]|];
      [| |exact Hwf]; unfold wf; simpl.
    + now rewrite players_handleAI_settle.
    + now rewrite players_handleNarrative_settle.
Qed.

Lemma wf_init : wf init.
Proof. split; constructor. Qed.

(** Well-formedness survives any run of events in which every new
    connection brings a socket no registered player holds and an
    identifier that is not a key yet. *)
Theorem wf_run (evs : list Event) :
  forall w, wf w -> admissible_run evs w -> wf (run evs w).
Proof.
  induction evs as [|ev evs IH]; intros w Hwf Hadm; simpl in *; [exact Hwf|].
  destruct Hadm as [Hev Hrest]. apply IH; [now apply wf_step | exact Hrest].
Qed.

End Invariant.

(** * The server on concrete inputs *)

Section Runs.
#[local] Existing Instance Sample.runtime.

(** The sample worlds are reachable from the empty server and
    well-formed. *)
Lemma wf_lobby : wf Sample.lobby.
Proof.
  split; vm_compute; repeat constructor; simpl; intuition discriminate.
Qed.

(** The gate on a full registry and on an empty one. *)
Lemma connection_gate_witness :
  map_size (players Sample.full_house) >= MAX_PLAYERS /\
  players (on_connection 9 7 Sample.full_house) = players Sample.full_house /\
  effects (on_connection 9 7 Sample.full_house)
  = effects Sample.full_house ++ [WsSend 9 (JSON_stringify msg_full); WsClose 9] /\
  map_size (players init) < MAX_PLAYERS /\
  map_get "a" (players (on_connection 1 0 init)) = Some (mkPlayer 1 0 JNull).
Proof.
  assert (Hfull : map_size (players Sample.full_house) >= MAX_PLAYERS)
    by (vm_compute; discriminate).
  assert (Hroom : map_size (players init) < MAX_PLAYERS) by reflexivity.
  destruct (@connection_gate Sample.runtime 9 7 Sample.full_house) as [Hreject _].
  destruct (@connection_gate Sample.runtime 1 0 init) as [_ Hadmit].
  destruct (Hreject Hfull) as (Hp & _ & _ & _ & He).
  destruct (Hadmit Hroom) as (_ & Hg & _).
  split; [exact Hfull|]. split; [exact Hp|]. split; [exact He|].
  split; [exact Hroom | exact Hg].
Defined.

(** A fan-out passes over a closing socket in the middle of the registry
    and still reaches the entry after it. *)
Lemma broadcast_frame_witness :
  players Sample.lobby_b_closing
  = [("a", mkPlayer 1 0 JNull)] ++ ("b", mkPlayer 2 1 JNull) :: [("c", mkPlayer 3 2 JNull)] /\
  is_open Sample.lobby_b_closing (mkPlayer 2 1 JNull) = false /\
  effects (broadcastAll (msg_join "z") Sample.lobby_b_closing)
  = effects Sample.lobby_b_closing ++
    [WsSend 1 (JSON_stringify (msg_join "z")); WsSend 3 (JSON_stringify (msg_join "z"))].
Proof.
  assert (Hs : players Sample.lobby_b_closing
               = [("a", mkPlayer 1 0 JNull)] ++ ("b", mkPlayer 2 1 JNull)
                   :: [("c", mkPlayer 3 2 JNull)]) by reflexivity.
  assert (Hc : is_open Sample.lobby_b_closing (mkPlayer 2 1 JNull) = false)
    by reflexivity.
  split; [exact Hs|]. split; [exact Hc|].
  destruct (@broadcast_frame Sample.runtime (msg_join "z") None Sample.lobby_b_closing)
    as (_ & _ & _ & _ & _ & _ & Hskip).
  exact (Hskip _ _ _ Hs Hc).
Defined.

(** A snapshot from the first of three players reaches the second and not
    the sender. *)
Lemma state_relay_witness :
  wf Sample.lobby /\
  map_get "a" (players Sample.lobby) = Some (mkPlayer 1 0 JNull) /\
  map_get "a" (players (on_message "a" 1 "state1" 5 Sample.lobby))
  = Some (mkPlayer 1 5 (JObj [("x", JNum 1)])) /\
  sent_to 2 (effects (on_message "a" 1 "state1" 5 Sample.lobby))
  = sent_to 2 (effects Sample.lobby)
    ++ [JSON_stringify (msg_state "a" (JObj [("x", JNum 1)]))] /\
  sent_to 1 (effects (on_message "a" 1 "state1" 5 Sample.lobby))
  = sent_to 1 (effects Sample.lobby).
Proof.
  assert (Hget : map_get "a" (players Sample.lobby) = Some (mkPlayer 1 0 JNull))
    by reflexivity.
  assert (Hb : In ("b", mkPlayer 2 1 JNull) (players Sample.lobby))
    by (vm_compute; auto).
  assert (Hne : "b" <> "a") by discriminate.
  destruct (@state_relay Sample.runtime "a" 1 "state1" 5 Sample.lobby
              (JObj [("type", JStr "state"); ("data", JObj [("x", JNum 1)])])
              (mkPlayer 1 0 JNull) wf_lobby eq_refl eq_refl Hget)
    as (Hself & _ & _ & _ & Hothers & Hnone).
  split; [exact wf_lobby|]. split; [exact Hget|]. split; [exact Hself|].
  split; [exact (Hothers "b" (mkPlayer 2 1 JNull) Hb Hne eq_refl) | exact Hnone].
Defined.

(** A snapshot handled for a player the sweep has already evicted. *)
Lemma state_after_removal_witness :
  map_get "a" (players Sample.after_sweep) = None /\
  players (on_message "a" 1 "state1" 15002 Sample.after_sweep)
  = players Sample.after_sweep /\
  effects (on_message "a" 1 "state1" 15002 Sample.after_sweep)
  = effects Sample.after_sweep
    ++ [WsSend 2 (JSON_stringify (msg_state "a" (JObj [("x", JNum 1)])))].
Proof.
  assert (Hgone : map_get "a" (players Sample.after_sweep) = None) by reflexivity.
  destruct (@state_after_removal Sample.runtime "a" 1 "state1" 15002 Sample.after_sweep
              (JObj [("type", JStr "state"); ("data", JObj [("x", JNum 1)])])
              eq_refl eq_refl Hgone) as (Hp & He).
  split; [exact Hgone|]. split; [exact Hp | exact He].
Defined.

(** A sweep at 15002 over players last seen at 0, 1 and 2: the third is
    exactly at the threshold and stays. *)
Lemma reaper_sweep_witness :
  wf Sample.lobby /\
  players (stale_cleanup 15002 Sample.lobby) = [("c", mkPlayer 3 2 JNull)] /\
  terminated (effects (stale_cleanup 15002 Sample.lobby)) = [1%nat; 2%nat] /\
  sent_to 3 (effects (stale_cleanup 15002 Sample.lobby))
  = sent_to 3 (effects Sample.lobby)
    ++ [JSON_stringify (msg_leave "a"); JSON_stringify (msg_leave "b")].
Proof.
  assert (Hc : In ("c", mkPlayer 3 2 JNull) (players Sample.lobby))
    by (vm_compute; auto).
  destruct (@reaper_sweep Sample.runtime 15002 Sample.lobby wf_lobby)
    as (_ & Hp & _ & Ht & _ & Hkept).
  destruct (Hkept ("c", mkPlayer 3 2 JNull) Hc eq_refl) as (_ & _ & _ & Hsent).
  split; [exact wf_lobby|]. split; [exact Hp|]. split; [exact Ht|].
  exact (Hsent eq_refl).
Defined.


(** An [ai] message without a key, a [narrative] message without a key,
    and a [narrative] message with nothing but a key. *)
Lemma missing_field_rejection_witness :
  JSON_parse "ai-nokey"
  = Some (JObj [("type", JStr "ai"); ("prompt", JStr "add a moose")]) /\
  effects (on_message "a" 1 "ai-nokey" 5 Sample.lobby)
  = effects Sample.lobby
    ++ [WsSend 1 (JSON_stringify
                    (msg_code_error "Missing API key or prompt" (JStr "add a moose")))] /\
  backend_calls (effects (on_message "a" 1 "narrative-nokey" 5 Sample.lobby))
  = backend_calls (effects Sample.lobby) /\
  pending (on_message "a" 1 "narrative-bare" 5 Sample.lobby)
  = pending Sample.lobby
    ++ [NarrativeFrame "a" (JObj [("type", JStr "narrative"); ("apiKey", JStr "k")])].
Proof.
  destruct (@missing_field_rejection Sample.runtime "a" 1 "ai-nokey" 5 Sample.lobby
              (JObj [("type", JStr "ai"); ("prompt", JStr "add a moose")]) eq_refl)
    as [Hai _].
  destruct (@missing_field_rejection Sample.runtime "a" 1 "narrative-nokey" 5 Sample.lobby
              (JObj [("type", JStr "narrative"); ("name", JStr "Vik")]) eq_refl)
    as (_ & Hnarrative & _).
  destruct (@missing_field_rejection Sample.runtime "a" 1 "narrative-bare" 5 Sample.lobby
              (JObj [("type", JStr "narrative"); ("apiKey", JStr "k")]) eq_refl)
    as (_ & _ & Hforwarded).
  destruct (Hai eq_refl eq_refl) as (He & _).
  destruct (Hnarrative eq_refl eq_refl) as (Hb & _).
  destruct (Hforwarded eq_refl eq_refl eq_refl eq_refl eq_refl eq_refl eq_refl)
    as (content & _ & Hf).
  split; [reflexivity|]. split; [exact He|]. split; [exact Hb | exact Hf].
Defined.

(** Both sub-protocols for a requester that is still registered: a reply
    with code and a rejected call; a narrative that parses, a rejected
    call and a narrative that does not parse. *)
Lemma pipeline_outcome_witness :
  response_text (Sample.reply "x=1") = Ok "x=1" /\
  effects (handleAI_settle "a" (JStr "add a moose") (Sample.reply "x=1") Sample.lobby)
  = effects Sample.lobby
    ++ fanout (JSON_stringify (msg_code "x=1" (JStr "add a moose") "a"))
         (players Sample.lobby) /\
  response_text (Rejected (Error "overloaded")) = Throw (Error "overloaded") /\
  effects (handleAI_settle "a" (JStr "add a moose") (Rejected (Error "overloaded"))
             Sample.lobby)
  = effects Sample.lobby
    ++ [WsSend 1 (JSON_stringify (msg_code_error "overloaded" (JStr "add a moose")))] /\
  JSON_parse (strip_fences ["json"] "{}") = Some (JObj []) /\
  effects (handleNarrative_settle "a" (JObj [("settlementId", JStr "vik")])
             (Sample.reply "{}") Sample.lobby)
  = effects Sample.lobby
    ++ fanout (JSON_stringify (msg_narrative_result (JStr "vik") (JObj [])))
         (players Sample.lobby) /\
  effects (handleNarrative_settle "a" (JObj [("settlementId", JStr "vik")])
             (Rejected (Error "overloaded")) Sample.lobby)
  = effects Sample.lobby
    ++ [WsSend 1 (JSON_stringify (msg_narrative_error (JStr "vik") "overloaded"))] /\
  JSON_parse (strip_fences ["json"] "once upon a time") = None /\
  exists e,
    effects (handleNarrative_settle "a" (JObj [("settlementId", JStr "vik")])
               (Sample.reply "once upon a time") Sample.lobby)
    = effects Sample.lobby
      ++ [WsSend 1 (JSON_stringify (msg_narrative_error (JStr "vik") (message e)))].
Proof.
  destruct (@pipeline_outcome Sample.runtime "a" (JStr "add a moose") JNull (Sample.reply "x=1")
              Sample.lobby) as (Hok & _).
  destruct (@pipeline_outcome Sample.runtime "a" (JStr "add a moose") JNull
              (Rejected (Error "overloaded")) Sample.lobby) as (_ & Hfail & _).
  destruct (@pipeline_outcome Sample.runtime "a" JNull
              (JObj [("settlementId", JStr "vik")]) (Sample.reply "{}") Sample.lobby)
    as (_ & _ & Hstory & _).
  destruct (@pipeline_outcome Sample.runtime "a" JNull
              (JObj [("settlementId", JStr "vik")]) (Rejected (Error "overloaded"))
              Sample.lobby) as (_ & _ & _ & Hrejected & _).
  destruct (@pipeline_outcome Sample.runtime "a" JNull
              (JObj [("settlementId", JStr "vik")]) (Sample.reply "once upon a time")
              Sample.lobby) as (_ & _ & _ & _ & Hgarbled & _).
  assert (Hnull : JObj [] <> JNull) by discriminate.
  assert (Hundef : JObj [] <> JUndefined) by discriminate.
  split; [reflexivity|]. split; [exact (Hok "x=1" eq_refl)|].
  split; [reflexivity|]. split; [exact (Hfail (Error "overloaded") eq_refl)|].
  split; [reflexivity|].
  split; [exact (Hstory "{}" (JObj []) eq_refl eq_refl Hnull Hundef)|].
  split; [exact (Hrejected (Error "overloaded") eq_refl)|].
  split; [reflexivity|].
  exact (Hgarbled "once upon a time" eq_refl eq_refl).
Defined.

(** C2, as stated, fails on the narrative path.  A [narrative] message
    without a key is dropped without any reply, and one that carries a key
    but no context at all is forwarded to the backend. *)
Lemma narrative_request_not_validated :
  JSON_parse "narrative-nokey"
  = Some (JObj [("type", JStr "narrative"); ("name", JStr "Vik")]) /\
  on_message "a" 1 "narrative-nokey" 5 Sample.lobby = Sample.lobby /\
  JSON_parse "narrative-bare"
  = Some (JObj [("type", JStr "narrative"); ("apiKey", JStr "k")]) /\
  List.length (backend_calls (effects (on_message "a" 1 "narrative-bare" 5 Sample.lobby)))
  = S (List.length (backend_calls (effects Sample.lobby))).
Proof.
  repeat split; reflexivity.
Qed.

(** C3, as stated, fails when the requester is gone: the call of a player
    who left while it was pending is rejected, and no error reply is sent
    to anyone. *)
Lemma error_reply_dropped_when_requester_gone :
  pending Sample.asked_and_left = [AIFrame "a" (JStr "add a moose")] /\
  map_get "a" (players Sample.asked_and_left) = None /\
  effects (step (Settle 0 (Rejected (Error "overloaded"))) Sample.asked_and_left)
  = effects Sample.asked_and_left.
Proof.
  repeat split; vm_compute; reflexivity.
Qed.

(** C5 on a falsy snapshot.  The first player has reported the snapshot
    [0], which is what the registry holds for it; the welcome sent to the
    next player admitted lists nobody. *)
Lemma roster_drops_falsy_state :
  JSON_parse "state0" = Some (JObj [("type", JStr "state"); ("data", JNum 0)]) /\
  map_get "a" (players Sample.zero_state) = Some (mkPlayer 1 3 (JNum 0)) /\
  getPlayerStates (on_connection 2 5 Sample.zero_state) = [] /\
  sent_to 2 (effects (on_connection 2 5 Sample.zero_state))
  = [JSON_stringify (msg_welcome "b" [])].
Proof.
  repeat split; vm_compute; reflexivity.
Qed.

(** The scenario of three players: the first reports [{x: 1}] and then
    disconnects; the other two each get one [state] and one [leave], the
    first gets neither. *)
Example three_players :
  let w := run [Message 1 "state1" 5; Close 1] Sample.lobby in
  sent_to 2 (effects w)
  = sent_to 2 (effects Sample.lobby)
    ++ [JSON_stringify (msg_state "a" (JObj [("x", JNum 1)]));
        JSON_stringify (msg_leave "a")] /\
  sent_to 3 (effects w)
  = sent_to 3 (effects Sample.lobby)
    ++ [JSON_stringify (msg_state "a" (JObj [("x", JNum 1)]));
        JSON_stringify (msg_leave "a")] /\
  sent_to 1 (effects w) = sent_to 1 (effects Sample.lobby).
Proof. repeat split; vm_compute; reflexivity. Qed.

(** A snapshot is in the roster of the next welcome verbatim. *)
Example snapshot_in_next_welcome :
  sent_to 4 (effects (run [Message 1 "state1" 5; Connection 4 6] Sample.lobby))
  = [JSON_stringify
       (msg_welcome "d" [JObj [("id", JStr "a"); ("data", JObj [("x", JNum 1)])]])].
Proof. vm_compute; reflexivity. Qed.

(** The ninth connection of a run is turned away. *)
Example ninth_connection :
  let w := step (Connection 9 7) Sample.full_house in
  sent_to 9 (effects w) = [JSON_stringify msg_full] /\
  List.length (players w) = 8%nat /\
  listener_of 9 w = None.
Proof. repeat split; vm_compute; reflexivity. Qed.

(** C6 end to end.  Two players; the sweep at 15001 evicts the first and
    terminates its socket, and that socket then reports ['close'].  The
    second player is sent [leave] for the first one twice: once by the
    sweep and once more by the disconnect callback, which runs for the
    evicted id as for any other.  After a clean disconnect it is sent
    [leave] once. *)
Lemma eviction_sends_leave_twice :
  let evicted :=
    run [Connection 1 0; Connection 2 1; Interval 15001; Close 1] init in
  let disconnected := run [Connection 1 0; Connection 2 1; Close 1] init in
  terminated (effects evicted) = [1%nat] /\
  players evicted = [("b", mkPlayer 2 1 JNull)] /\
  sent_to 2 (effects evicted)
  = [JSON_stringify (msg_welcome "b" []);
     JSON_stringify (msg_leave "a"); JSON_stringify (msg_leave "a")] /\
  players disconnected = [("b", mkPlayer 2 1 JNull)] /\
  sent_to 2 (effects disconnected)
  = [JSON_stringify (msg_welcome "b" []); JSON_stringify (msg_leave "a")].
Proof. repeat split; vm_compute; reflexivity. Qed.

(** When the socket the sweep terminated later reports ['close'], the
    disconnect callback runs for the evicted id and pushes [leave] once
    more. *)
Example leave_again_on_close :
  sent_to 2 (effects (run [Close 1] Sample.after_sweep))
  = sent_to 2 (effects Sample.after_sweep) ++ [JSON_stringify (msg_leave "a")] /\
  sent_to 2 (effects Sample.after_sweep)
  = [JSON_stringify (msg_welcome "b" []); JSON_stringify (msg_leave "a")].
Proof. repeat split; vm_compute; reflexivity. Qed.

(** A narrative reply that parses to [null]: the result is broadcast, and
    then reading its summary throws, so the requester also gets a
    [narrative_error]. *)
Example narrative_null_result :
  sent_to 1 (effects (handleNarrative_settle "a" (JObj []) (Sample.reply "null")
                        Sample.lobby))
  = sent_to 1 (effects Sample.lobby)
    ++ [JSON_stringify (msg_narrative_result JUndefined JNull);
        JSON_stringify
          (msg_narrative_error JUndefined
             "Cannot read properties of null or undefined")].
Proof. vm_compute; reflexivity. Qed.

End Runs.

(** * The deployment webhook *)

Section WebhookFacts.
Context {rt : Runtime} {host : Host}.

Lemma is_str_eq (v : jsval) (lit : string) : is_str v lit = true -> v = JStr lit.
Proof.
  destruct v; simpl; try discriminate. intro H.
  apply String.eqb_eq in H. now subst.
Qed.

Lemma deploy_shape :
  (fst deploy = [PULL_COMMAND] /\ exists e, execSync PULL_COMMAND = Throw e) \/
  (fst deploy = [PULL_COMMAND; RESTART_COMMAND] /\
   exists out, execSync PULL_COMMAND = Ok out).
Proof.
  unfold deploy. destruct (execSync PULL_COMMAND) as [out|e].
  - right. destruct (execSync RESTART_COMMAND); simpl; eauto.
  - left. simpl. eauto.
Qed.

(** Commands run only for a push to the main branch that passed the
    signature check: either no secret is configured, or the header is
    exactly the expected digest.  Such a request has been answered
    [200 Deploying] and no exception leaves the handler. *)
Theorem webhook_runs_only_authorised_main (secret : string) (signature body : jsval) :
  ran (webhook secret signature body) <> [] ->
  get body "ref" = Ok (JStr MAIN_REF) /\
  (secret = "" \/
   signature = JStr ("sha256=" ++ hmac_sha256_hex secret (JSON_stringify body))%string) /\
  replied (webhook secret signature body) = [mkReply 200 "Deploying"] /\
  escaped (webhook secret signature body) = None.
Proof.
  intro Hran.
  assert (Hafter : forall h, h = after_signature body -> ran h <> [] ->
            get body "ref" = Ok (JStr MAIN_REF) /\
            replied h = [mkReply 200 "Deploying"] /\ escaped h = None).
  { intros h -> H. unfold after_signature in *.
    destruct (get body "ref") as [ref|e]; simpl in H; [|contradiction].
    destruct (is_str ref MAIN_REF) eqn:E; simpl in *; [|contradiction].
    apply is_str_eq in E. subst ref. auto. }
  unfold webhook in *. destruct (truthy (JStr secret)) eqn:Hsecret.
  - destruct (expected_signature secret body) as [expected|e] eqn:Hexp;
      [|simpl in Hran; contradiction].
    destruct (is_str (js_or signature (JStr "")) expected) eqn:E;
      simpl in Hran |- *; [|contradiction].
    destruct (Hafter _ eq_refl Hran) as (Hr & Hp & He).
    split; [exact Hr|]. split; [|split; assumption].
    right. apply is_str_eq in E.
    assert (Hexpected : expected
              = ("sha256=" ++ hmac_sha256_hex secret (JSON_stringify body))%string).
    { unfold expected_signature in Hexp.
      destruct body; try discriminate; now injection Hexp as <-. }
    subst expected. unfold js_or in E.
    destruct (truthy signature); [exact E | discriminate E].
  - destruct (Hafter _ eq_refl Hran) as (Hr & Hp & He).
    split; [exact Hr|]. split; [|split; assumption].
    left. simpl in Hsecret. destruct (String.eqb_spec secret ""); [assumption|discriminate].
Qed.

Lemma after_signature_projections (body : jsval) :
  replied (after_signature body) = replies_of (after_signature_trace body) /\
  ran (after_signature body) = commands_of (after_signature_trace body) /\
  logged (after_signature body) = logs_of (after_signature_trace body).
Proof.
  unfold after_signature, after_signature_trace, deploy, deploy_trace.
  destruct (get body "ref") as [ref|e]; simpl; [|auto].
  destruct (is_str ref MAIN_REF); simpl; [|auto].
  destruct (execSync PULL_COMMAND); simpl; [|auto].
  destruct (execSync RESTART_COMMAND); simpl; auto.
Qed.

Lemma webhook_projections (secret : string) (signature body : jsval) :
  replied (webhook secret signature body)
  = replies_of (webhook_trace secret signature body) /\
  ran (webhook secret signature body)
  = commands_of (webhook_trace secret signature body) /\
  logged (webhook secret signature body)
  = logs_of (webhook_trace secret signature body).
Proof.
  unfold webhook, webhook_trace.
  destruct (truthy (JStr secret)); [|apply after_signature_projections].
  destruct (expected_signature secret body) as [expected|e]; simpl; [|auto].
  destruct (is_str (js_or signature (JStr "")) expected); simpl;
    [apply after_signature_projections | auto].
Qed.

Lemma after_signature_trace_shape (body : jsval) :
  let t := after_signature_trace body in
  (commands_of t = [] /\ (List.length (replies_of t) <= 1)%nat) \/
  (exists e,
     execSync PULL_COMMAND = Throw e /\
     t = [Logs LogWebhookReceived; Replies (mkReply 200 "Deploying");
          Runs PULL_COMMAND; Logs (LogDeployFailed (message e))]) \/
  (exists out,
     execSync PULL_COMMAND = Ok out /\
     exists rest,
       t = [Logs LogWebhookReceived; Replies (mkReply 200 "Deploying");
            Runs PULL_COMMAND; Logs LogPullComplete; Runs RESTART_COMMAND] ++ rest /\
       commands_of rest = [] /\ replies_of rest = []).
Proof.
  cbv zeta. unfold after_signature_trace, deploy_trace.
  destruct (get body "ref") as [ref|e]; simpl; [|auto].
  destruct (is_str ref MAIN_REF); simpl; [|auto].
  destruct (execSync PULL_COMMAND) as [out|e].
  - right; right. exists out. split; [reflexivity|].
    destruct (execSync RESTART_COMMAND) as [out'|e'].
    + exists []. auto.
    + exists [Logs (LogDeployFailed (message e'))]. auto.
  - right; left. exists e. auto.
Qed.

(** The handler sends at most one reply.  When it deploys, it first logs
    the request and answers [200 Deploying], and only then runs the pull;
    the restart runs after the pull and exactly when the pull succeeded.
    Nothing is replied after a command, so the answer is [Deploying] even
    when a command fails.  The replies, commands and log lines of the
    handler are those of this sequence. *)
Theorem webhook_deploy_sequence (secret : string) (signature body : jsval) :
  let h := webhook secret signature body in
  let t := webhook_trace secret signature body in
  replied h = replies_of t /\
  ran h = commands_of t /\
  logged h = logs_of t /\
  ((commands_of t = [] /\ (List.length (replies_of t) <= 1)%nat) \/
   (exists e,
      execSync PULL_COMMAND = Throw e /\
      t = [Logs LogWebhookReceived; Replies (mkReply 200 "Deploying");
           Runs PULL_COMMAND; Logs (LogDeployFailed (message e))]) \/
   (exists out,
      execSync PULL_COMMAND = Ok out /\
      exists rest,
        t = [Logs LogWebhookReceived; Replies (mkReply 200 "Deploying");
             Runs PULL_COMMAND; Logs LogPullComplete; Runs RESTART_COMMAND] ++ rest /\
        commands_of rest = [] /\ replies_of rest = [])).
Proof.
  cbv zeta.
  destruct (webhook_projections secret signature body) as (Hr & Hc & Hl).
  split; [exact Hr|]. split; [exact Hc|]. split; [exact Hl|].
  unfold webhook_trace.
  destruct (truthy (JStr secret)); [|apply after_signature_trace_shape].
  destruct (expected_signature secret body) as [expected|e]; simpl; [|auto].
  destruct (is_str (js_or signature (JStr "")) expected); simpl;
    [apply after_signature_trace_shape | auto].
Qed.

(** With a secret configured, a request whose header is absent or is not
    the expected digest is answered [403 Bad signature]; nothing runs. *)
Theorem webhook_bad_signature (secret : string) (signature body : jsval) :
  secret <> "" ->
  body <> JUndefined ->
  signature <> JStr ("sha256=" ++ hmac_sha256_hex secret (JSON_stringify body))%string ->
  webhook secret signature body = mkHook [mkReply 403 "Bad signature"] [] [] None.
Proof.
  intros Hsecret Hbody Hsig. unfold webhook.
  rewrite (truthy_str secret Hsecret).
  assert (He : expected_signature secret body
               = Ok ("sha256=" ++ hmac_sha256_hex secret (JSON_stringify body))%string)
    by (destruct body; try reflexivity; contradiction).
  rewrite He.
  destruct (is_str (js_or signature (JStr ""))
              ("sha256=" ++ hmac_sha256_hex secret (JSON_stringify body))) eqn:E;
    [|reflexivity].
  apply is_str_eq in E. unfold js_or in E.
  destruct (truthy signature); [contradiction | discriminate].
Qed.

End WebhookFacts.

(** * More about the registry and the callbacks *)

Section Lifecycle.
Context {rt : Runtime}.

Lemma length_map_set_le {V : Type} (m : list (Id * V)) (k : Id) (v : V) :
  (List.length (map_set k v m) <= S (List.length m))%nat.
Proof.
  induction m as [|[k' v'] m IH]; simpl; [lia|].
  destruct (k =? k')%string; simpl; lia.
Qed.

Lemma length_map_delete_le {V : Type} (m : list (Id * V)) (k : Id) :
  (List.length (map_delete k m) <= List.length m)%nat.
Proof.
  induction m as [|[k' v'] m IH]; simpl; [lia|].
  destruct (k =? k')%string; simpl; lia.
Qed.

Lemma length_keys {V : Type} (m : list (Id * V)) :
  List.length (keys m) = List.length m.
Proof. apply length_map. Qed.

Lemma sweep_entry_never_grows (now : Z) (id : Id) (w : World) :
  (List.length (players (sweep_entry now id w)) <= List.length (players w))%nat.
Proof.
  unfold sweep_entry. destruct (map_get id (players w)) as [p|]; [|lia].
  destruct (now - lastSeen p >? STALE_TIMEOUT); [|lia].
  rewrite broadcast_emit_all; simpl. apply length_map_delete_le.
Qed.

Lemma stale_cleanup_never_grows (now : Z) (w : World) :
  (List.length (players (stale_cleanup now w)) <= List.length (players w))%nat.
Proof.
  unfold stale_cleanup. generalize (keys (players w)) as ks.
  intro ks. revert w. induction ks as [|k ks IH]; intro w; simpl; [lia|].
  specialize (IH (sweep_entry now k w)).
  pose proof (sweep_entry_never_grows now k w). lia.
Qed.

Lemma capacity_step (ev : Event) (w : World) :
  map_size (players w) <= MAX_PLAYERS ->
  map_size (players (step ev w)) <= MAX_PLAYERS.
Proof.
  unfold map_size, MAX_PLAYERS. intro Hcap.
  destruct ev as [s now|s raw now|s|now|k o]; simpl.
  - unfold on_connection.
    destruct (map_size (players w) >=? MAX_PLAYERS) eqn:E; [exact Hcap|].
    cbv zeta. rewrite broadcast_emit_all; simpl.
    assert (map_size (players w) < MAX_PLAYERS).
    { destruct (Z.ltb_spec (map_size (players w)) MAX_PLAYERS) as [H|H]; [exact H|].
      apply Z.geb_le in H. congruence. }
    unfold map_size, MAX_PLAYERS in *.
    pose proof (length_map_set_le (players w) (uuidv4 (uuid_calls w))
                  (mkPlayer s now JNull)). lia.
  - destruct (listener_of s w) as [id|]; [|exact Hcap].
    destruct (players_on_message id s raw now w) as [-> | (p & data & Hget & ->)];
      [exact Hcap|].
    rewrite <- length_keys, keys_map_set_present, length_keys; [exact Hcap|].
    apply map_get_In in Hget. now apply (in_map fst) in Hget.
  - destruct (listener_of s w) as [id|]; [|exact Hcap].
    rewrite players_on_close; simpl.
    eapply Z.le_trans; [apply Nat2Z.inj_le, filter_length_le | exact Hcap].
  - pose proof (stale_cleanup_never_grows now w). lia.
  - destruct (nth_error (pending w) k) as [[authorId prompt|authorId msg]|];
      [| |exact Hcap]; simpl.
    + now rewrite players_handleAI_settle.
    + now rewrite players_handleNarrative_settle.
Qed.

Lemma capacity_run (evs : list Event) :
  forall w, map_size (players w) <= MAX_PLAYERS ->
            map_size (players (run evs w)) <= MAX_PLAYERS.
Proof.
  induction evs as [|ev evs IH]; intros w Hcap; simpl; [exact Hcap|].
  apply IH. now apply capacity_step.
Qed.

(** Whatever events reach the server, in whatever order, the registry
    never holds more than 8 players. *)
Theorem registry_never_exceeds_capacity (evs : list Event) :
  map_size (players (run evs init)) <= MAX_PLAYERS.
Proof.
  apply capacity_run. unfold map_size, MAX_PLAYERS; simpl. lia.
Qed.

Lemma sockets_handleNarrative (authorId : Id) (msg : jsval) (w : World) :
  sockets (handleNarrative authorId msg w) = sockets w.
Proof.
  unfold handleNarrative. destruct (narrative_user_message msg).
  - reflexivity.
  - now rewrite narrative_failed_emit_all.
Qed.

Lemma sockets_on_message (id : Id) (s : Ws) (raw : string) (now : Z) (w : World) :
  sockets (on_message id s raw now w) = sockets w.
Proof.
  unfold on_message.
  destruct (JSON_parse raw) as [msg|]; [|reflexivity].
  destruct (get msg "type") as [type|]; [|reflexivity].
  destruct (is_str type "state").
  - rewrite broadcast_emit_all; simpl.
    now destruct (map_get id (players w)).
  - destruct (is_str type "ai" && truthy (prop msg "prompt")
              && truthy (prop msg "apiKey")).
    + destruct (js_slice0 (prop msg "prompt") PROMPT_LIMIT); reflexivity.
    + destruct (is_str type "ai"); [reflexivity|].
      destruct (is_str type "narrative" && truthy (prop msg "apiKey"));
        [|reflexivity].
      now rewrite sockets_handleNarrative.
Qed.

(** No inbound message, whatever it contains, adds or removes a player,
    changes another player's entry, or changes the state of any socket. *)
Theorem message_keeps_membership (id : Id) (s : Ws) (raw : string) (now : Z)
    (w : World) :
  let w' := on_message id s raw now w in
  keys (players w') = keys (players w) /\
  (forall id', id' <> id -> map_get id' (players w') = map_get id' (players w)) /\
  sockets w' = sockets w.
Proof.
  cbv zeta. split; [|split].
  - destruct (players_on_message id s raw now w) as [-> | (p & data & Hget & ->)];
      [reflexivity|].
    apply keys_map_set_present.
    apply map_get_In in Hget. now apply (in_map fst) in Hget.
  - intros id' Hne.
    destruct (players_on_message id s raw now w) as [-> | (p & data & Hget & ->)];
      [reflexivity|].
    now apply map_get_set_other.
  - apply sockets_on_message.
Qed.

Lemma players_unless_state (id : Id) (s : Ws) (raw : string) (now : Z) (w : World) :
  (forall msg, JSON_parse raw = Some msg -> get msg "type" <> Ok (JStr "state")) ->
  players (on_message id s raw now w) = players w.
Proof.
  intro Hother. unfold on_message.
  destruct (JSON_parse raw) as [msg|]; [|reflexivity].
  specialize (Hother msg eq_refl).
  destruct (get msg "type") as [type|]; [|reflexivity].
  destruct (is_str type "state") eqn:E.
  - apply is_str_eq in E. subst type. now contradiction Hother.
  - destruct (is_str type "ai" && truthy (prop msg "prompt")
              && truthy (prop msg "apiKey")).
    + destruct (js_slice0 (prop msg "prompt") PROMPT_LIMIT); reflexivity.
    + destruct (is_str type "ai"); [reflexivity|].
      destruct (is_str type "narrative" && truthy (prop msg "apiKey"));
        [|reflexivity].
      now rewrite players_handleNarrative.
Qed.

Lemma stale_key_filtered (now : Z) (m : list (Id * Player)) (id : Id) (p : Player) :
  NoDup (keys m) -> map_get id m = Some p -> is_stale now p = true ->
  map_get id (filter (fun e => negb (is_stale now (snd e))) m) = None.
Proof.
  intros Hkeys Hget Hstale. apply map_get_None.
  intro H. unfold keys in H. apply in_map_iff in H.
  destruct H as [[id' p'] [E H]]. simpl in E. subst id'.
  apply filter_In in H. destruct H as [H Hfresh].
  rewrite (In_map_get m id p' Hkeys H) in Hget. injection Hget as ->.
  simpl in Hfresh. now rewrite Hstale in Hfresh.
Qed.

(** Only a [state] message counts as a sign of life.  Any other inbound
    message (an [ai] or [narrative] request, an unknown type, text that is
    not JSON) leaves the registry exactly as it was, [lastSeen] included;
    so a player that is already stale is still evicted by a sweep that
    follows such a message. *)
Theorem only_state_refreshes_liveness (id : Id) (s : Ws) (raw : string) (now : Z)
    (w : World) :
  (forall msg, JSON_parse raw = Some msg -> get msg "type" <> Ok (JStr "state")) ->
  players (on_message id s raw now w) = players w /\
  (forall p later,
     wf w -> map_get id (players w) = Some p -> is_stale later p = true ->
     map_get id (players (stale_cleanup later (on_message id s raw now w))) = None).
Proof.
  intro Hother. pose proof (players_unless_state id s raw now w Hother) as Hsame.
  split; [exact Hsame|].
  intros p later Hwf Hget Hstale.
  assert (Hwf' : wf (on_message id s raw now w)) by (unfold wf; now rewrite Hsame).
  rewrite (players_stale_cleanup later _ Hwf'), Hsame.
  destruct Hwf as [Hkeys _]. now apply (stale_key_filtered later _ id p).
Qed.

Lemma on_close_emit_all (id : Id) (w : World) :
  on_close id w
  = emit_all
      (fanout (JSON_stringify (msg_leave id))
         (filter (fun e => is_open w (snd e))
            (filter (fun e => negb (fst e =? id)%string) (players w))))
      (set_players (map_delete id) w).
Proof.
  unfold on_close. rewrite broadcast_emit_all; simpl.
  now rewrite map_delete_filter.
Qed.

(** A disconnect removes the player and nobody else, keeps the others in
    order, and pushes one [leave] with its id to every other player whose
    socket is open; nothing is pushed on the socket that closed. *)
Theorem disconnect_notifies_rest (id : Id) (p : Player) (w : World) :
  wf w ->
  map_get id (players w) = Some p ->
  let w' := on_close id w in
  players w' = filter (fun e => negb (fst e =? id)%string) (players w) /\
  map_get id (players w') = None /\
  (forall id' p', In (id', p') (players w) -> id' <> id ->
     In (id', p') (players w') /\
     (is_open w p' = true ->
      sent_to (ws p') (effects w')
      = sent_to (ws p') (effects w) ++ [JSON_stringify (msg_leave id)])) /\
  sent_to (ws p) (effects w') = sent_to (ws p) (effects w).
Proof.
  intros [Hkeys Hsocks] Hget w'. unfold w'. rewrite on_close_emit_all; simpl.
  rewrite map_delete_filter.
  assert (Hin : In (id, p) (players w)) by now apply map_get_In.
  split; [reflexivity|]. split; [|split].
  - apply map_get_None. intro H. unfold keys in H. apply in_map_iff in H.
    destruct H as [[k v] [E H]]. simpl in E. subst k.
    apply filter_In in H. destruct H as [_ H]. simpl in H.
    now rewrite String.eqb_refl in H.
  - intros id' p' Hin' Hne.
    assert (Hkept : In (id', p')
              (filter (fun e => negb (fst e =? id)%string) (players w))).
    { apply filter_In. split; [exact Hin'|]. simpl.
      destruct (String.eqb_spec id' id); [contradiction | reflexivity]. }
    split; [exact Hkept|]. intro Hopen.
    rewrite sent_to_app. f_equal.
    apply (sent_to_fanout_present (id', p')).
    + now apply NoDup_sockets_filter, NoDup_sockets_filter.
    + apply filter_In. split; [exact Hkept | exact Hopen].
  - rewrite sent_to_app, sent_to_fanout_absent; [apply app_nil_r|].
    intro H. unfold sockets_of in H. apply in_map_iff in H.
    destruct H as [e [E He]].
    apply filter_In in He. destruct He as [He _].
    apply filter_In in He. destruct He as [He Hsel].
    assert (e = (id, p)) by (apply (socket_names_entry (players w)); auto).
    subst e. simpl in Hsel. now rewrite String.eqb_refl in Hsel.
Qed.

(** When the disconnect callback of a player runs after a sweep has
    already evicted that player, every player that survived the sweep with
    an open socket is sent [leave] for that id a second time: once by the
    sweep and once more by the disconnect. *)
Theorem leave_twice_after_eviction (now : Z) (id : Id) (p : Player)
    (e : Id * Player) (w : World) :
  wf w ->
  In (id, p) (players w) -> is_stale now p = true ->
  In e (players w) -> is_stale now (snd e) = false -> is_open w (snd e) = true ->
  sent_to (ws (snd e)) (effects (on_close id (stale_cleanup now w)))
  = sent_to (ws (snd e)) (effects w)
    ++ leave_notices now (players w) ++ [JSON_stringify (msg_leave id)] /\
  In (JSON_stringify (msg_leave id)) (leave_notices now (players w)).
Proof.
  intros [Hkeys Hsocks] Hin Hstale He Hfresh Hopen.
  destruct (sweep_loop now (players w) [] w eq_refl Hkeys Hsocks)
    as (Hp & _ & _ & Hs).
  fold (stale_cleanup now w) in Hp, Hs. simpl in Hp, Hs.
  destruct (Hs e He Hfresh) as [Hsock Hsent]. specialize (Hsent Hopen).
  set (sw := stale_cleanup now w) in *.
  split.
  - rewrite on_close_emit_all; simpl. rewrite sent_to_app, Hsent, <- app_assoc.
    f_equal. f_equal.
    assert (Hne : fst e <> id).
    { intro E. destruct e as [k v]. simpl in E. subst k.
      pose proof (In_map_get (players w) id v Hkeys He) as Hv.
      pose proof (In_map_get (players w) id p Hkeys Hin) as Hp'.
      rewrite Hv in Hp'. injection Hp' as ->. simpl in Hfresh. congruence. }
    apply (sent_to_fanout_present e).
    + rewrite Hp. now apply NoDup_sockets_filter, NoDup_sockets_filter,
        NoDup_sockets_filter.
    + apply filter_In. split.
      * apply filter_In. split.
        -- rewrite Hp. apply filter_In. split; [exact He|]. now rewrite Hfresh.
        -- apply negb_true_iff, String.eqb_neq. exact Hne.
      * cbv beta. etransitivity; [|exact Hopen].
        unfold is_open. f_equal. f_equal. exact Hsock.
  - unfold leave_notices.
    apply (in_map (fun i => JSON_stringify (msg_leave i))). unfold keys.
    apply (in_map fst (filter (fun e0 => is_stale now (snd e0)) (players w)) (id, p)).
    apply filter_In. split; [exact Hin | exact Hstale].
Qed.

End Lifecycle.

(** * Admission, ordering and the life of a backend call *)

Section Admission.
Context {rt : Runtime}.

Lemma on_connection_admit (s : Ws) (now : Z) (w : World) :
  map_size (players w) < MAX_PLAYERS ->
  ~ In (uuidv4 (uuid_calls w)) (keys (players w)) ->
  let id := uuidv4 (uuid_calls w) in
  effects (on_connection s now w)
  = effects w ++
    WsSend s (JSON_stringify
                (msg_welcome id
                   (List.map roster_entry
                      (filter (fun e => truthy (state (snd e))) (players w)))))
    :: fanout (JSON_stringify (msg_join id)) (open_players w).
Proof.
  intros Hsize Hfresh id. unfold on_connection.
  assert (E : (map_size (players w) >=? MAX_PLAYERS) = false).
  { destruct (map_size (players w) >=? MAX_PLAYERS) eqn:G; [|reflexivity].
    apply Z.geb_le in G. lia. }
  rewrite E. cbv zeta. rewrite broadcast_emit_all; simpl.
  fold id. unfold getPlayerStates; simpl.
  rewrite (map_set_absent _ _ _ Hfresh), !filter_app; simpl.
  rewrite String.eqb_refl; simpl. rewrite !app_nil_r, <- app_assoc; simpl.
  do 3 f_equal. apply (filter_not_excluded id w). exact Hfresh.
Qed.

(** An admitted connection is sent its welcome first and nothing else;
    every player already registered with an open socket is then sent one
    [join] with the new id, in registry order.  The welcome lists at most 7
    players. *)
Theorem admission_notices (s : Ws) (now : Z) (w : World) :
  wf w ->
  map_size (players w) < MAX_PLAYERS ->
  admissible (Connection s now) w ->
  let id := uuidv4 (uuid_calls w) in
  let roster :=
    List.map roster_entry (filter (fun e => truthy (state (snd e))) (players w)) in
  let w' := on_connection s now w in
  effects w'
  = effects w ++
    WsSend s (JSON_stringify (msg_welcome id roster))
    :: fanout (JSON_stringify (msg_join id)) (open_players w) /\
  (List.length roster <= 7)%nat /\
  sent_to s (effects w')
  = sent_to s (effects w) ++ [JSON_stringify (msg_welcome id roster)] /\
  (forall e, In e (players w) -> is_open w (snd e) = true ->
     sent_to (ws (snd e)) (effects w')
     = sent_to (ws (snd e)) (effects w) ++ [JSON_stringify (msg_join id)]).
Proof.
  intros [Hkeys Hsocks] Hsize [Hsock Hfresh] id roster w'.
  unfold w'. rewrite (on_connection_admit s now w Hsize Hfresh). fold id roster.
  split; [reflexivity|]. split; [|split].
  - unfold roster. rewrite length_map.
    pose proof (filter_length_le (fun e => truthy (state (snd e))) (players w)).
    unfold map_size, MAX_PLAYERS in Hsize. lia.
  - rewrite sent_to_app; simpl. rewrite Nat.eqb_refl. f_equal. f_equal.
    apply sent_to_fanout_absent. intro H. apply Hsock.
    now apply sockets_of_filter_In in H.
  - intros e He Hopen. rewrite sent_to_app; simpl.
    destruct (Nat.eqb_spec s (ws (snd e))) as [E|_].
    + exfalso. apply Hsock. rewrite E.
      now apply (in_map (fun x : Id * Player => ws (snd x))).
    + f_equal. apply (sent_to_fanout_present e).
      * now apply NoDup_sockets_filter.
      * apply filter_In. now split.
Qed.

Lemma on_message_state (id : Id) (s : Ws) (raw : string) (now : Z) (w : World)
    (msg : jsval) (p : Player) :
  JSON_parse raw = Some msg ->
  get msg "type" = Ok (JStr "state") ->
  map_get id (players w) = Some p ->
  players (on_message id s raw now w)
  = map_set id (mkPlayer (ws p) now (prop msg "data")) (players w) /\
  uuid_calls (on_message id s raw now w) = uuid_calls w.
Proof.
  intros Hparse Htype Hget. unfold on_message.
  rewrite Hparse, Htype; simpl. rewrite Hget, broadcast_emit_all. now split.
Qed.

(** A truthy snapshot reported by a registered player is listed, verbatim
    and under that player's id, in the welcome of the next connection
    admitted. *)
Theorem snapshot_in_next_welcome_roster (id : Id) (s0 s : Ws) (raw : string)
    (t1 t2 : Z) (w : World) (msg : jsval) (p : Player) :
  JSON_parse raw = Some msg ->
  get msg "type" = Ok (JStr "state") ->
  map_get id (players w) = Some p ->
  truthy (prop msg "data") = true ->
  map_size (players w) < MAX_PLAYERS ->
  ~ In (uuidv4 (uuid_calls w)) (keys (players w)) ->
  let w1 := on_message id s0 raw t1 w in
  exists roster joins,
    effects (on_connection s t2 w1)
    = effects w1 ++
      WsSend s (JSON_stringify (msg_welcome (uuidv4 (uuid_calls w)) roster)) :: joins /\
    In (JObj [("id", JStr id); ("data", prop msg "data")]) roster.
Proof.
  intros Hparse Htype Hget Hdata Hsize Hfresh w1.
  destruct (on_message_state id s0 raw t1 w msg p Hparse Htype Hget) as [Hp Hu].
  fold w1 in Hp, Hu.
  assert (Hkeys : keys (players w1) = keys (players w)).
  { rewrite Hp. apply keys_map_set_present.
    apply map_get_In in Hget. now apply (in_map fst) in Hget. }
  assert (Hsize1 : map_size (players w1) < MAX_PLAYERS).
  { unfold map_size in *. now rewrite <- length_keys, Hkeys, length_keys. }
  assert (Hfresh1 : ~ In (uuidv4 (uuid_calls w1)) (keys (players w1)))
    by now rewrite Hu, Hkeys.
  pose proof (on_connection_admit s t2 w1 Hsize1 Hfresh1) as He.
  cbv zeta in He. rewrite Hu in He.
  eexists. eexists. split; [exact He|].
  apply (in_map roster_entry _ (id, mkPlayer (ws p) t1 (prop msg "data"))).
  apply filter_In. split; [|exact Hdata].
  apply (map_get_In (players w1)). rewrite Hp. apply map_get_set_same.
Qed.

(** Two fan-outs made one after the other reach a recipient in that
    order: a player with an open socket that neither call excludes is
    pushed the first message and then the second. *)
Theorem broadcasts_arrive_in_order (m1 m2 : jsval) (ex1 ex2 : option Id)
    (e : Id * Player) (w : World) :
  wf w ->
  In e (players w) ->
  is_open w (snd e) = true ->
  differs (fst e) ex1 = true ->
  differs (fst e) ex2 = true ->
  sent_to (ws (snd e)) (effects (broadcast m2 ex2 (broadcast m1 ex1 w)))
  = sent_to (ws (snd e)) (effects w) ++ [JSON_stringify m1; JSON_stringify m2].
Proof.
  intros [_ Hsocks] He Hopen H1 H2.
  rewrite (broadcast_emit_all m2), (broadcast_emit_all m1); simpl.
  rewrite !sent_to_app, <- app_assoc. f_equal.
  rewrite !(sent_to_fanout_present e); try reflexivity;
    try (now apply NoDup_sockets_filter);
    apply filter_In; (split; [exact He|]); apply andb_true_iff; split;
    solve [assumption | exact Hopen].
Qed.

End Admission.

(** * Edge cases of the external-request pipeline *)

Section PipelineEdges.
Context {rt : Runtime}.

Lemma backend_calls_reply_to (authorId : Id) (raw : string) (w : World) :
  backend_calls (reply_to authorId raw w) = [].
Proof.
  unfold reply_to. destruct (map_get authorId (players w)) as [p|]; [|reflexivity].
  now destruct (is_open w p).
Qed.

Lemma resume_frame (f : Closure) (o : Outcome) (w : World) :
  backend_calls (effects (resume f o w)) = backend_calls (effects w) /\
  pending (resume f o w) = pending w /\
  players (resume f o w) = players w.
Proof.
  destruct f as [authorId prompt|authorId msg]; simpl.
  - unfold handleAI_settle. destruct (response_text o) as [text|e].
    + rewrite broadcastAll_emit_all; simpl.
      now rewrite backend_calls_app, backend_calls_fanout, app_nil_r.
    + rewrite ai_failed_emit_all; simpl.
      now rewrite backend_calls_app, backend_calls_reply_to, app_nil_r.
  - unfold handleNarrative_settle. destruct (response_text o) as [text|e].
    + destruct (JSON_parse (strip_fences ["json"] text)) as [result|].
      * rewrite broadcastAll_emit_all.
        destruct (get result "summary"); simpl.
        -- now rewrite backend_calls_app, backend_calls_fanout, app_nil_r.
        -- rewrite narrative_failed_emit_all.
           cbn [effects pending players log emit_all].
           rewrite !backend_calls_app, backend_calls_fanout, backend_calls_reply_to.
           now rewrite !app_nil_r.
      * rewrite narrative_failed_emit_all; simpl.
        now rewrite backend_calls_app, backend_calls_reply_to, app_nil_r.
    + rewrite narrative_failed_emit_all; simpl.
      now rewrite backend_calls_app, backend_calls_reply_to, app_nil_r.
Qed.

(** A settled call is never retried: whatever the backend answered,
    resuming the awaiting frame issues no further request, takes exactly
    that frame off the pending ones and leaves the registry alone. *)
Theorem settle_never_retries (k : nat) (o : Outcome) (w : World) (f : Closure) :
  nth_error (pending w) k = Some f ->
  let w' := step (Settle k o) w in
  backend_calls (effects w') = backend_calls (effects w) /\
  pending w' = firstn k (pending w) ++ skipn (S k) (pending w) /\
  S (List.length (pending w')) = List.length (pending w) /\
  players w' = players w.
Proof.
  intros Hk w'. unfold w', step. rewrite Hk.
  destruct (resume_frame f o
              (set_pending (fun fs => firstn k fs ++ skipn (S k) fs) w))
    as (Hb & Hp & Hpl).
  rewrite Hb, Hp, Hpl. unfold set_pending. cbn [pending effects players].
  repeat split.
  assert (Hlt : (k < List.length (pending w))%nat)
    by (apply nth_error_Some; congruence).
  rewrite length_app, length_firstn, length_skipn. lia.
Qed.

Lemma js_items_not_array (v : jsval) (method : string) :
  truthy v = true -> (forall items, v <> JArr items) ->
  exists e, js_items v method = Throw e.
Proof.
  intros Ht Hno. unfold js_items, js_or. rewrite Ht.
  destruct v; eauto. now contradiction (Hno items).
Qed.

Lemma narrative_user_message_throws (msg : jsval) (field : string) :
  field = "npcList" \/ field = "history" ->
  truthy (prop msg field) = true ->
  (forall items, prop msg field <> JArr items) ->
  exists e, narrative_user_message msg = Throw e.
Proof.
  intros Hfield Ht Hno. unfold narrative_user_message.
  destruct (ToString (prop msg "name")) as [name|e]; simpl; [|eauto].
  destruct (ToString (js_or (prop msg "storySeed") (JStr "(none provided)")))
    as [seed|e]; simpl; [|eauto].
  destruct Hfield as [-> | ->].
  - destruct (js_items_not_array _ "map" Ht Hno) as [e ->]. simpl. eauto.
  - destruct (js_items (prop msg "npcList") "map") as [npcs|e]; simpl; [|eauto].
    destruct (map_res npc_line npcs) as [lines|e]; simpl; [|eauto].
    destruct (js_items_not_array _ "join" Ht Hno) as [e ->]. simpl. eauto.
Qed.

(** A [narrative] request with a key whose [npcList] or [history] is
    present but is not an array never reaches the backend: building the
    user message throws, and the requester is sent [narrative_error] at
    once if its socket is open. *)
Theorem narrative_list_not_array (id : Id) (s : Ws) (raw : string) (now : Z)
    (w : World) (msg : jsval) (field : string) :
  JSON_parse raw = Some msg ->
  get msg "type" = Ok (JStr "narrative") ->
  truthy (prop msg "apiKey") = true ->
  field = "npcList" \/ field = "history" ->
  truthy (prop msg field) = true ->
  (forall items, prop msg field <> JArr items) ->
  let w' := on_message id s raw now w in
  exists e,
    effects w'
    = effects w ++
      reply_to id
        (JSON_stringify (msg_narrative_error (prop msg "settlementId") (message e))) w /\
    backend_calls (effects w') = backend_calls (effects w) /\
    pending w' = pending w.
Proof.
  intros Hparse Htype Hkey Hfield Ht Hno w'.
  destruct (narrative_user_message_throws msg field Hfield Ht Hno) as [e He].
  exists e. unfold w', on_message. rewrite Hparse, Htype; simpl. rewrite Hkey; simpl.
  unfold handleNarrative. rewrite He, narrative_failed_emit_all; simpl.
  split; [reflexivity|]. split; [|reflexivity].
  rewrite backend_calls_app.
  change (reply_to id
            (JSON_stringify (msg_narrative_error (prop msg "settlementId") (message e)))
            (log (LogNarrativeRequest id (prop msg "name")) w))
    with (reply_to id
            (JSON_stringify (msg_narrative_error (prop msg "settlementId") (message e)))
            w).
  now rewrite backend_calls_reply_to, app_nil_r.
Qed.

(** An [ai] request with a key whose prompt is truthy but is neither a
    string nor an array (a number, [true], an object) disappears: [slice]
    throws inside the [try], so there is no reply, no backend request and
    no change to the registry. *)
Theorem ai_prompt_not_sliceable (id : Id) (s : Ws) (raw : string) (now : Z)
    (w : World) (msg : jsval) :
  JSON_parse raw = Some msg ->
  get msg "type" = Ok (JStr "ai") ->
  truthy (prop msg "prompt") = true ->
  truthy (prop msg "apiKey") = true ->
  (forall t, prop msg "prompt" <> JStr t) ->
  (forall items, prop msg "prompt" <> JArr items) ->
  let w' := on_message id s raw now w in
  effects w' = effects w /\ pending w' = pending w /\ players w' = players w /\
  console w' = console w ++ [LogWSMessageError].
Proof.
  intros Hparse Htype Hprompt Hkey Hstr Harr w'. unfold w', on_message.
  rewrite Hparse, Htype; simpl. rewrite Hprompt, Hkey; simpl.
  destruct (prop msg "prompt") as [| | | |t|items|]; simpl; auto.
  - now contradiction (Hstr t).
  - now contradiction (Harr items).
Qed.

(** A backend answer without a text in its first content block (no
    content, an empty list of blocks, a block whose [text] is not a string)
    is handled as a failure: nothing is broadcast and the requester is sent
    [code_error] if it is still registered with an open socket. *)
Theorem reply_without_text_fails (authorId : Id) (prompt response : jsval) (w : World) :
  (forall t, (content <- get response "content" ;;
              block <- get0 content ;;
              get block "text") <> Ok (JStr t)) ->
  exists e,
    response_text (Resolved response) = Throw e /\
    effects (handleAI_settle authorId prompt (Resolved response) w)
    = effects w ++
      reply_to authorId (JSON_stringify (msg_code_error (message e) prompt)) w.
Proof.
  intro Hno.
  assert (Hthrow : exists e, response_text (Resolved response) = Throw e).
  { unfold response_text.
    destruct (get response "content") as [content|e]; simpl in *; [|eauto].
    destruct (get0 content) as [block|e]; simpl in *; [|eauto].
    destruct (get block "text") as [text|e]; simpl in *; [|eauto].
    destruct text; simpl; eauto. now contradiction (Hno s). }
  destruct Hthrow as [e He]. exists e. split; [exact He|].
  unfold handleAI_settle. rewrite He. now rewrite ai_failed_emit_all.
Qed.

End PipelineEdges.

(** * Unwrapping a fenced reply *)

Section Fences.
Context {rt : Runtime}.

Lemma string_length_app (a b : string) :
  String.length (a ++ b) = (String.length a + String.length b)%nat.
Proof. induction a as [|c a IH]; simpl; [reflexivity | now rewrite IH]. Qed.

Lemma substring_all (s : string) : substring 0 (String.length s) s = s.
Proof. induction s as [|c s IH]; simpl; [reflexivity | now rewrite IH]. Qed.

Lemma substring_app_right (a b : string) :
  substring (String.length a) (String.length b) (a ++ b) = b.
Proof. induction a as [|c a IH]; simpl; [apply substring_all | exact IH]. Qed.

Lemma substring_app_left (a b : string) :
  substring 0 (String.length a) (a ++ b) = a.
Proof.
  induction a as [|c a IH]; simpl; [now destruct b | now rewrite IH].
Qed.

Lemma prefix_app (p s : string) : String.prefix p (p ++ s) = true.
Proof.
  induction p as [|c p IH]; simpl; [now destruct s|].
  destruct (ascii_dec c c); [exact IH | contradiction].
Qed.

Lemma drop_prefix_app (p s : string) : drop_prefix p (p ++ s) = s.
Proof.
  unfold drop_prefix. rewrite prefix_app, string_length_app.
  replace (String.length p + String.length s - String.length p)%nat
    with (String.length s) by lia.
  apply substring_app_right.
Qed.

Lemma endsWith_app (p s : string) : endsWith p (s ++ p) = true.
Proof.
  unfold endsWith. rewrite string_length_app.
  replace (String.length s + String.length p - String.length p)%nat
    with (String.length s) by lia.
  rewrite substring_app_right, String.eqb_refl, andb_true_r.
  apply Nat.leb_le. lia.
Qed.

Lemma drop_suffix_app (p s : string) : drop_suffix p (s ++ p) = s.
Proof.
  unfold drop_suffix. rewrite endsWith_app, string_length_app.
  replace (String.length s + String.length p - String.length p)%nat
    with (String.length s) by lia.
  apply substring_app_left.
Qed.

(** Once the language tag is gone, the rest of the unwrapping. *)
Lemma strip_fences_after_tag (langs : list string) (tagged body : string) :
  match find (fun l => String.prefix l tagged) langs with
  | Some l => drop_prefix l tagged
  | None => tagged
  end = (nl ++ body ++ nl ++ fence)%string ->
  strip_fences langs (fence ++ tagged) = body.
Proof.
  intro Htag. unfold strip_fences, startsWith. rewrite prefix_app.
  unfold strip_open_fence. rewrite drop_prefix_app, Htag, drop_prefix_app.
  unfold strip_close_fence. now rewrite endsWith_app, drop_suffix_app.
Qed.

Lemma list_ascii_app (a b : string) :
  list_ascii_of_string (a ++ b) = list_ascii_of_string a ++ list_ascii_of_string b.
Proof. induction a as [|c a IH]; simpl; [reflexivity | now rewrite IH]. Qed.

Lemma drop_spaces_blank (sp l : list ascii) :
  forallb is_space sp = true -> drop_spaces (sp ++ l) = drop_spaces l.
Proof.
  induction sp as [|c sp IH]; simpl; [reflexivity|].
  intro H. apply andb_true_iff in H. destruct H as [Hc Hsp].
  rewrite Hc. now apply IH.
Qed.

Lemma rev_blank (sp : list ascii) :
  forallb is_space sp = true -> forallb is_space (rev sp) = true.
Proof.
  intro H. apply forallb_forall. intros c Hc. apply in_rev in Hc.
  rewrite forallb_forall in H. now apply H.
Qed.

Lemma drop_spaces_head (c : ascii) (l : list ascii) :
  is_space c = false -> drop_spaces (c :: l) = c :: l.
Proof. intro H. simpl. now rewrite H. Qed.

Lemma trim_core (sp1 sp2 core : list ascii) :
  forallb is_space sp1 = true -> forallb is_space sp2 = true ->
  (exists c l, core = c :: l /\ is_space c = false) ->
  (exists c l, rev core = c :: l /\ is_space c = false) ->
  rev (drop_spaces (rev (drop_spaces (sp1 ++ core ++ sp2)))) = core.
Proof.
  intros H1 H2 (c & l & Hcore & Hc) (d & k & Hrev & Hd).
  rewrite (drop_spaces_blank _ _ H1).
  rewrite Hcore at 1. simpl app. rewrite (drop_spaces_head _ _ Hc).
  change (c :: l ++ sp2) with ((c :: l) ++ sp2). rewrite <- Hcore.
  rewrite rev_app_distr, (drop_spaces_blank _ _ (rev_blank _ H2)).
  rewrite Hrev, (drop_spaces_head _ _ Hd), <- Hrev. apply rev_involutive.
Qed.

(** Trimming a fenced block padded with white space gives the block. *)
Lemma trim_fenced (pad1 pad2 inner : string) :
  blank pad1 = true -> blank pad2 = true ->
  trim (pad1 ++ (fence ++ inner ++ fence) ++ pad2) = (fence ++ inner ++ fence)%string.
Proof.
  unfold blank, trim. intros H1 H2.
  rewrite !list_ascii_app, (trim_core _ _ _ H1 H2).
  - rewrite <- !list_ascii_app. apply string_of_list_ascii_of_string.
  - simpl. eauto.
  - rewrite !rev_app_distr. simpl. eauto.
Qed.

Lemma string_app_assoc (a b c : string) : ((a ++ b) ++ c = a ++ b ++ c)%string.
Proof. induction a as [|x a IH]; simpl; [reflexivity | now rewrite IH]. Qed.

Lemma response_text_trimmed (response : jsval) (t : string) :
  (content <- get response "content" ;;
   block <- get0 content ;;
   get block "text") = Ok (JStr t) ->
  response_text (Resolved response) = Ok (trim t).
Proof.
  unfold response_text.
  destruct (get response "content") as [content|e]; simpl; [|discriminate].
  destruct (get0 content) as [block|e]; simpl; [|discriminate].
  destruct (get block "text") as [text|e]; simpl; [|discriminate].
  now intros [= ->].
Qed.

Lemma trim_fenced_block (pad1 pad2 lang body : string) :
  blank pad1 = true -> blank pad2 = true ->
  trim (pad1 ++ (fence ++ lang ++ nl ++ body ++ nl ++ fence) ++ pad2)
  = (fence ++ lang ++ nl ++ body ++ nl ++ fence)%string.
Proof.
  intros H1 H2.
  replace (fence ++ lang ++ nl ++ body ++ nl ++ fence)%string
    with (fence ++ (lang ++ nl ++ body ++ nl) ++ fence)%string
    by now rewrite !string_app_assoc.
  now apply trim_fenced.
Qed.

Lemma strip_code_fences (lang body : string) :
  In lang ["javascript"; "js"; ""] ->
  strip_fences ["javascript"; "js"] (fence ++ lang ++ nl ++ body ++ nl ++ fence) = body.
Proof.
  intro Hlang. apply strip_fences_after_tag.
  destruct Hlang as [<- | [<- | [<- | []]]].
  - cbn [find]. now rewrite prefix_app, drop_prefix_app.
  - cbn [find].
    replace (String.prefix "javascript" ("js" ++ nl ++ body ++ nl ++ fence))
      with false by reflexivity.
    now rewrite prefix_app, drop_prefix_app.
  - reflexivity.
Qed.

Lemma strip_json_fences (lang body : string) :
  In lang ["json"; ""] ->
  strip_fences ["json"] (fence ++ lang ++ nl ++ body ++ nl ++ fence) = body.
Proof.
  intro Hlang. apply strip_fences_after_tag.
  destruct Hlang as [<- | [<- | []]].
  - cbn [find]. now rewrite prefix_app, drop_prefix_app.
  - reflexivity.
Qed.

(** Code that the backend wrapped in a Markdown fence, with or without a
    [js] or [javascript] tag and with white space around it, is broadcast
    without the fence, the tag and the padding: the [code] message carries
    the body between the fence lines. *)
Theorem fenced_code_is_unwrapped (authorId : Id) (prompt response : jsval)
    (w : World) (lang body pad1 pad2 : string) :
  In lang ["javascript"; "js"; ""] ->
  blank pad1 = true ->
  blank pad2 = true ->
  (content <- get response "content" ;;
   block <- get0 content ;;
   get block "text")
  = Ok (JStr (pad1 ++ (fence ++ lang ++ nl ++ body ++ nl ++ fence) ++ pad2)) ->
  handleAI_settle authorId prompt (Resolved response) w
  = broadcastAll (msg_code body prompt authorId) w.
Proof.
  intros Hlang H1 H2 Htext. unfold handleAI_settle.
  rewrite (response_text_trimmed _ _ Htext), (trim_fenced_block _ _ _ _ H1 H2).
  now rewrite (strip_code_fences lang body Hlang).
Qed.

(** A narrative the backend wrapped in a Markdown fence, with or without a
    [json] tag, is parsed from the body between the fence lines; when that
    body parses to an object, the parsed value is what [narrative_result]
    carries to every open socket. *)
Theorem fenced_narrative_is_unwrapped (authorId : Id) (msg response : jsval)
    (w : World) (lang body pad1 pad2 : string) (fields : list (string * jsval)) :
  In lang ["json"; ""] ->
  blank pad1 = true ->
  blank pad2 = true ->
  (content <- get response "content" ;;
   block <- get0 content ;;
   get block "text")
  = Ok (JStr (pad1 ++ (fence ++ lang ++ nl ++ body ++ nl ++ fence) ++ pad2)) ->
  JSON_parse body = Some (JObj fields) ->
  effects (handleNarrative_settle authorId msg (Resolved response) w)
  = effects w ++
    fanout (JSON_stringify
              (msg_narrative_result (prop msg "settlementId") (JObj fields)))
      (open_players w).
Proof.
  intros Hlang H1 H2 Htext Hparse. unfold handleNarrative_settle.
  rewrite (response_text_trimmed _ _ Htext), (trim_fenced_block _ _ _ _ H1 H2).
  rewrite (strip_json_fences lang body Hlang), Hparse, broadcastAll_emit_all.
  reflexivity.
Qed.

End Fences.

(** * The added properties on concrete inputs *)

Section MoreRuns.

(** A signed push to the main branch deploys. *)
Lemma webhook_runs_only_authorised_main_witness :
  ran (@webhook Cases.runtime Cases.host "s3cret" Cases.signed_main Cases.push_main)
  <> [] /\
  replied (@webhook Cases.runtime Cases.host "s3cret" Cases.signed_main Cases.push_main)
  = [mkReply 200 "Deploying"].
Proof.
  assert (Hran : ran (@webhook Cases.runtime Cases.host "s3cret" Cases.signed_main
                        Cases.push_main) <> []) by (vm_compute; discriminate).
  destruct (@webhook_runs_only_authorised_main Cases.runtime Cases.host
              "s3cret" Cases.signed_main Cases.push_main Hran) as (_ & _ & Hr & _).
  split; [exact Hran | exact Hr].
Defined.

(** An unsigned push is refused when a secret is configured. *)
Lemma webhook_bad_signature_witness :
  "s3cret" <> "" /\
  @webhook Cases.runtime Cases.host "s3cret" JUndefined Cases.push_main
  = mkHook [mkReply 403 "Bad signature"] [] [] None.
Proof.
  assert (Hs : "s3cret" <> "") by discriminate.
  assert (Hb : Cases.push_main <> JUndefined) by discriminate.
  assert (Hsig : JUndefined
                 <> JStr ("sha256=" ++ @hmac_sha256_hex Cases.host "s3cret"
                                        (@JSON_stringify Cases.runtime Cases.push_main)))
    by discriminate.
  split; [exact Hs|].
  exact (@webhook_bad_signature Cases.runtime Cases.host "s3cret" JUndefined
           Cases.push_main Hs Hb Hsig).
Defined.

(** A code request does not keep the first player alive. *)
Lemma only_state_refreshes_liveness_witness :
  players (@on_message Cases.runtime "a" 1 "ai" 5 Sample.lobby) = players Sample.lobby /\
  map_get "a"
    (players (@stale_cleanup Cases.runtime 20000
                (@on_message Cases.runtime "a" 1 "ai" 5 Sample.lobby))) = None.
Proof.
  assert (Hother : forall msg, @JSON_parse Cases.runtime "ai" = Some msg ->
                               get msg "type" <> Ok (JStr "state")).
  { intros msg H. vm_compute in H. injection H as <-. discriminate. }
  destruct (@only_state_refreshes_liveness Cases.runtime "a" 1 "ai" 5 Sample.lobby
              Hother) as [Hsame Hevict].
  split; [exact Hsame|].
  exact (Hevict (mkPlayer 1 0 JNull) 20000 wf_lobby eq_refl eq_refl).
Defined.

(** The first of three players disconnects. *)
Lemma disconnect_notifies_rest_witness :
  map_get "a" (players Sample.lobby) = Some (mkPlayer 1 0 JNull) /\
  map_get "a" (players (@on_close Cases.runtime "a" Sample.lobby)) = None /\
  sent_to 3 (effects (@on_close Cases.runtime "a" Sample.lobby))
  = sent_to 3 (effects Sample.lobby)
    ++ [@JSON_stringify Cases.runtime (msg_leave "a")].
Proof.
  assert (Hget : map_get "a" (players Sample.lobby) = Some (mkPlayer 1 0 JNull))
    by reflexivity.
  assert (Hc : In ("c", mkPlayer 3 2 JNull) (players Sample.lobby))
    by (vm_compute; auto).
  assert (Hne : "c" <> "a") by discriminate.
  destruct (@disconnect_notifies_rest Cases.runtime "a" (mkPlayer 1 0 JNull)
              Sample.lobby wf_lobby Hget) as (_ & Hgone & Hrest & _).
  destruct (Hrest "c" (mkPlayer 3 2 JNull) Hc Hne) as [_ Hsent].
  split; [exact Hget|]. split; [exact Hgone | exact (Hsent eq_refl)].
Defined.

(** The first player is evicted at 15001 and its socket then closes. *)
Lemma leave_twice_after_eviction_witness :
  wf Sample.lobby /\
  sent_to 2 (effects (@on_close Cases.runtime "a"
                        (@stale_cleanup Cases.runtime 15001 Sample.lobby)))
  = sent_to 2 (effects Sample.lobby)
    ++ @leave_notices Cases.runtime 15001 (players Sample.lobby)
    ++ [@JSON_stringify Cases.runtime (msg_leave "a")].
Proof.
  assert (Ha : In ("a", mkPlayer 1 0 JNull) (players Sample.lobby))
    by (vm_compute; auto).
  assert (Hb : In ("b", mkPlayer 2 1 JNull) (players Sample.lobby))
    by (vm_compute; auto).
  destruct (@leave_twice_after_eviction Cases.runtime 15001 "a" (mkPlayer 1 0 JNull)
              ("b", mkPlayer 2 1 JNull) Sample.lobby wf_lobby Ha eq_refl Hb eq_refl
              eq_refl) as [Hsent _].
  split; [exact wf_lobby | exact Hsent].
Defined.

(** A fourth player joins three. *)
Lemma admission_notices_witness :
  wf Sample.lobby /\
  map_size (players Sample.lobby) < MAX_PLAYERS /\
  @admissible Cases.runtime (Connection 4 9) Sample.lobby /\
  sent_to 4 (effects (@on_connection Cases.runtime 4 9 Sample.lobby))
  = sent_to 4 (effects Sample.lobby)
    ++ [@JSON_stringify Cases.runtime (msg_welcome "d" [])] /\
  sent_to 2 (effects (@on_connection Cases.runtime 4 9 Sample.lobby))
  = sent_to 2 (effects Sample.lobby)
    ++ [@JSON_stringify Cases.runtime (msg_join "d")].
Proof.
  assert (Hsize : map_size (players Sample.lobby) < MAX_PLAYERS) by reflexivity.
  assert (Hadm : @admissible Cases.runtime (Connection 4 9) Sample.lobby).
  { split; vm_compute; intuition discriminate. }
  assert (Hb : In ("b", mkPlayer 2 1 JNull) (players Sample.lobby))
    by (vm_compute; auto).
  destruct (@admission_notices Cases.runtime 4 9 Sample.lobby wf_lobby Hsize Hadm)
    as (_ & _ & Hnew & Hold).
  split; [exact wf_lobby|]. split; [exact Hsize|]. split; [exact Hadm|].
  split; [exact Hnew | exact (Hold ("b", mkPlayer 2 1 JNull) Hb eq_refl)].
Defined.

(** The snapshot [{x: 1}] of the first player is in the next welcome. *)
Lemma snapshot_in_next_welcome_roster_witness :
  exists roster joins,
    effects (@on_connection Cases.runtime 4 9
               (@on_message Cases.runtime "a" 1 "state1" 5 Sample.lobby))
    = effects (@on_message Cases.runtime "a" 1 "state1" 5 Sample.lobby)
      ++ WsSend 4 (@JSON_stringify Cases.runtime (msg_welcome "d" roster)) :: joins /\
    In (JObj [("id", JStr "a"); ("data", JObj [("x", JNum 1)])]) roster.
Proof.
  assert (Hfresh : ~ In (@uuidv4 Cases.runtime (uuid_calls Sample.lobby))
                        (keys (players Sample.lobby)))
    by (vm_compute; intuition discriminate).
  exact (@snapshot_in_next_welcome_roster Cases.runtime "a" 1 4 "state1" 5 9
           Sample.lobby
           (JObj [("type", JStr "state"); ("data", JObj [("x", JNum 1)])])
           (mkPlayer 1 0 JNull) eq_refl eq_refl eq_refl eq_refl eq_refl Hfresh).
Defined.

(** A [join] followed by a [leave] reaches the second player in that
    order. *)
Lemma broadcasts_arrive_in_order_witness :
  wf Sample.lobby /\
  sent_to 2 (effects (@broadcast Cases.runtime (msg_leave "x") None
                        (@broadcast Cases.runtime (msg_join "x") None Sample.lobby)))
  = sent_to 2 (effects Sample.lobby)
    ++ [@JSON_stringify Cases.runtime (msg_join "x");
        @JSON_stringify Cases.runtime (msg_leave "x")].
Proof.
  assert (Hb : In ("b", mkPlayer 2 1 JNull) (players Sample.lobby))
    by (vm_compute; auto).
  split; [exact wf_lobby|].
  exact (@broadcasts_arrive_in_order Cases.runtime (msg_join "x") (msg_leave "x")
           None None ("b", mkPlayer 2 1 JNull) Sample.lobby wf_lobby Hb
           eq_refl eq_refl eq_refl).
Defined.

(** The one pending call of the sample world is settled. *)
Lemma settle_never_retries_witness :
  nth_error (pending Sample.asked_and_left) 0 = Some (AIFrame "a" (JStr "add a moose")) /\
  pending (@step Cases.runtime (Settle 0 (Rejected (Error "overloaded")))
             Sample.asked_and_left) = [] /\
  backend_calls (effects (@step Cases.runtime (Settle 0 (Rejected (Error "overloaded")))
                            Sample.asked_and_left))
  = backend_calls (effects Sample.asked_and_left).
Proof.
  assert (Hk : nth_error (pending Sample.asked_and_left) 0
               = Some (AIFrame "a" (JStr "add a moose"))) by reflexivity.
  destruct (@settle_never_retries Cases.runtime 0 (Rejected (Error "overloaded"))
              Sample.asked_and_left _ Hk) as (Hb & Hp & _).
  split; [exact Hk|]. split; [exact Hp | exact Hb].
Defined.

(** A narrative request whose list of villagers is a string. *)
Lemma narrative_list_not_array_witness :
  @JSON_parse Cases.runtime "narrative-badlist"
  = Some (JObj [("type", JStr "narrative"); ("apiKey", JStr "k");
                ("settlementId", JStr "vik"); ("npcList", JStr "everyone")]) /\
  backend_calls (effects (@on_message Cases.runtime "a" 1 "narrative-badlist" 5
                            Sample.lobby))
  = backend_calls (effects Sample.lobby) /\
  exists e,
    effects (@on_message Cases.runtime "a" 1 "narrative-badlist" 5 Sample.lobby)
    = effects Sample.lobby
      ++ [WsSend 1 (@JSON_stringify Cases.runtime
                      (msg_narrative_error (JStr "vik") (message e)))].
Proof.
  assert (Hno : forall items, JStr "everyone" <> JArr items) by discriminate.
  destruct (@narrative_list_not_array Cases.runtime "a" 1 "narrative-badlist" 5
              Sample.lobby
              (JObj [("type", JStr "narrative"); ("apiKey", JStr "k");
                     ("settlementId", JStr "vik"); ("npcList", JStr "everyone")])
              "npcList" eq_refl eq_refl eq_refl (or_introl eq_refl) eq_refl Hno)
    as (e & He & Hb & _).
  split; [reflexivity|]. split; [exact Hb|]. exists e. exact He.
Defined.

(** A code request whose prompt is the number 1. *)
Lemma ai_prompt_not_sliceable_witness :
  @JSON_parse Cases.runtime "ai-number"
  = Some (JObj [("type", JStr "ai"); ("prompt", JNum 1); ("apiKey", JStr "k")]) /\
  effects (@on_message Cases.runtime "a" 1 "ai-number" 5 Sample.lobby)
  = effects Sample.lobby.
Proof.
  assert (Hstr : forall t, JNum 1 <> JStr t) by discriminate.
  assert (Harr : forall items, JNum 1 <> JArr items) by discriminate.
  destruct (@ai_prompt_not_sliceable Cases.runtime "a" 1 "ai-number" 5 Sample.lobby
              (JObj [("type", JStr "ai"); ("prompt", JNum 1); ("apiKey", JStr "k")])
              eq_refl eq_refl eq_refl eq_refl Hstr Harr) as (He & _).
  split; [reflexivity | exact He].
Defined.

(** A backend answer with no content blocks. *)
Lemma reply_without_text_fails_witness :
  exists e,
    effects (@handleAI_settle Cases.runtime "a" (JStr "add a moose")
               (Resolved (JObj [("content", JArr [])])) Sample.lobby)
    = effects Sample.lobby
      ++ [WsSend 1 (@JSON_stringify Cases.runtime
                      (msg_code_error (message e) (JStr "add a moose")))].
Proof.
  assert (Hno : forall t,
            (content <- get (JObj [("content", JArr [])]) "content" ;;
             block <- get0 content ;;
             get block "text") <> Ok (JStr t)) by discriminate.
  destruct (@reply_without_text_fails Cases.runtime "a" (JStr "add a moose")
              (JObj [("content", JArr [])]) Sample.lobby Hno) as (e & _ & He).
  exists e. exact He.
Defined.

(** [" ```js\nx=1\n```\n"] is broadcast as [x=1]. *)
Lemma fenced_code_is_unwrapped_witness :
  @handleAI_settle Cases.runtime "a" (JStr "add a moose") (Resolved (Cases.response Cases.fenced_code))
    Sample.lobby
  = @broadcastAll Cases.runtime (msg_code "x=1" (JStr "add a moose") "a") Sample.lobby.
Proof.
  assert (Hlang : In "js" ["javascript"; "js"; ""]) by (simpl; auto).
  exact (@fenced_code_is_unwrapped Cases.runtime "a" (JStr "add a moose")
           (Cases.response Cases.fenced_code) Sample.lobby "js" "x=1" " " nl
           Hlang eq_refl eq_refl eq_refl).
Defined.

(** A fenced [{}] is parsed and broadcast as the narrative result. *)
Lemma fenced_narrative_is_unwrapped_witness :
  @JSON_parse Cases.runtime "{}" = Some (JObj []) /\
  effects (@handleNarrative_settle Cases.runtime "a" (JObj [])
             (Resolved (Cases.response Cases.fenced_json)) Sample.lobby)
  = effects Sample.lobby
    ++ fanout (@JSON_stringify Cases.runtime (msg_narrative_result JUndefined (JObj [])))
         (open_players Sample.lobby).
Proof.
  assert (Hlang : In "json" ["json"; ""]) by (simpl; auto).
  split; [reflexivity|].
  exact (@fenced_narrative_is_unwrapped Cases.runtime "a" (JObj [])
           (Cases.response Cases.fenced_json) Sample.lobby "json" "{}" "" " " []
           Hlang eq_refl eq_refl eq_refl eq_refl).
Defined.

(** A day of events from the empty server ends in a well-formed world. *)
Lemma wf_run_witness :
  wf init /\
  @admissible_run Cases.runtime Cases.day init /\
  wf (@run Cases.runtime Cases.day init).
Proof.
  assert (Hadm : @admissible_run Cases.runtime Cases.day init).
  { vm_compute. intuition discriminate. }
  split; [exact wf_init|]. split; [exact Hadm|].
  exact (@wf_run Cases.runtime Cases.day init wf_init Hadm).
Defined.

(** A push to main whose pull fails is still answered [Deploying], and the
    restart is not attempted. *)
Example deploy_stops_after_failed_pull :
  @webhook Cases.runtime Cases.host_pull_fails "" JUndefined Cases.push_main
  = mkHook [mkReply 200 "Deploying"] [PULL_COMMAND]
      [LogWebhookReceived; LogDeployFailed "Command failed"] None.
Proof. reflexivity. Qed.

(** The same request step by step: the reply comes before the pull. *)
Example deploy_steps_after_failed_pull :
  @webhook_trace Cases.runtime Cases.host_pull_fails "" JUndefined Cases.push_main
  = [Logs LogWebhookReceived; Replies (mkReply 200 "Deploying");
     Runs PULL_COMMAND; Logs (LogDeployFailed "Command failed")].
Proof. reflexivity. Qed.

(** A narrative request whose settlement name is an object with a
    [toString] key of its own cannot be put into the user message: the
    requester is sent [narrative_error] and the backend is not called. *)
Example narrative_unprintable_name :
  effects (@handleNarrative Cases.runtime "a"
             (JObj [("type", JStr "narrative"); ("apiKey", JStr "k");
                    ("name", JObj [("toString", JNull)])])
             Sample.lobby)
  = effects Sample.lobby
    ++ [WsSend 1 (@JSON_stringify Cases.runtime
                    (msg_narrative_error JUndefined
                       "Cannot convert object to primitive value"))].
Proof. vm_compute; reflexivity. Qed.

(** A signed push to another branch is ignored. *)
Example other_branch_ignored :
  @webhook Cases.runtime Cases.host ""  JUndefined Cases.push_branch
  = mkHook [mkReply 200 "Ignored"] [] [] None.
Proof. reflexivity. Qed.

End MoreRuns.
